(** * yapper stream processor: batch accumulator and connection manager

    A shallow embedding of [src/server/stream.ts].

    The program is a single-threaded Node process.  Its asynchronous pieces
    are modelled the way the runtime executes them:

    - a call of the async method [flush] runs synchronously up to its only
      [await] (the [fetch] call) and hands back a promise; the rest of the
      method body ([flush_resume]) runs when the runtime settles that
      request;
    - [setTimeout]/[clearTimeout] act on the runtime's table of live
      timeouts; a timeout callback runs when the runtime fires it;
    - the world between two such runtime turns is a value of type [World],
      and one turn is one [step] of a labelled transition system. *)

From Stdlib Require Import String.
From Stdlib Require Import List ZArith Lia Bool Arith PeanoNat.
From Stdlib Require Import Sorted Permutation.
Import ListNotations.
Local Open Scope Z_scope.

(* ================================================================= *)
(** ** Data model *)

(** [interface CastEvent { fid: number; timestamp: number }] *)
Record CastEvent : Type := mkCast { fid : Z; timestamp : Z }.

Definition BATCH_SIZE : Z := 20.
Definition BATCH_TIMEOUT : Z := 5000.

(** Size of the retry slice, the literal of [batchToSend.slice(0, 10)]. *)
Definition RETRY_KEEP : nat := 10.

Definition TimerId := nat.
Definition ReqId := nat.

(** What an [await fetch(...)] can come back with. *)
Inductive FetchResult : Type :=
| FetchRejects (reason : string)     (* transport failure: the promise rejects *)
| FetchResponds (status : Z).        (* a response with this HTTP status *)

(** [response.ok]: status in the range 200-299. *)
Definition response_ok (status : Z) : bool :=
  (200 <=? status) && (status <=? 299).

(** Values caught by the [catch] clause of [flush]. *)
Inductive Error : Type :=
| TransportError (reason : string)
| HttpError (status : Z).            (* new Error(`HTTP ${response.status}`) *)

Inductive LogLine : Type :=
| LogSent (n : nat)                  (* console.log(`Sent ${n} casts`) *)
| LogSendFailed (e : Error)          (* console.error("Failed to send batch:", e) *)
| LogShuttingDown.                   (* console.log("Shutting down...") *)

(** A [fetch] that was issued and has not settled yet; [payload] is the
    [batchToSend] captured by the suspended [flush] activation. *)
Record Request : Type := mkReq { rid : ReqId; payload : list CastEvent }.

(** One delivery call, as the sink would observe it. *)
Record Call : Type := mkCall { call_time : Z; call_payload : list CastEvent }.

(** What a call of [flush()] returns to its caller: a promise that is
    already resolved (the early [return]) or one that settles together with
    the request the call issued. *)
Inductive FlushPromise : Type :=
| Resolved
| Pending (r : ReqId).

(** How the promise of an async function ends. *)
Inductive Completion : Type :=
| Fulfilled
| Rejected (e : Error).

Record World : Type := mkWorld {
  (* the SimpleBatcher object *)
  batch : list CastEvent;            (* this.batch *)
  timer : option TimerId;            (* this.timer, null = None *)
  batchSize : Z;                     (* this.batchSize *)
  timeout : Z;                       (* this.timeout *)
  (* the runtime *)
  now : Z;                           (* clock, milliseconds *)
  timers : list (TimerId * Z);       (* live timeouts: handle, due time *)
  next_timer : TimerId;
  inflight : list Request;           (* fetches issued, not yet settled *)
  next_req : ReqId;
  waiters : list ReqId;              (* flush promises the SIGINT handler awaits *)
  exited : option Z;                 (* process.exit status, once called *)
  (* observations *)
  calls : list Call;                 (* every fetch issued so far, oldest first *)
  console : list LogLine
}.

Definition set_batch (b : list CastEvent) (w : World) : World :=
  mkWorld b (timer w) (batchSize w) (timeout w) (now w) (timers w)
          (next_timer w) (inflight w) (next_req w) (waiters w) (exited w)
          (calls w) (console w).

Definition set_timer (t : option TimerId) (w : World) : World :=
  mkWorld (batch w) t (batchSize w) (timeout w) (now w) (timers w)
          (next_timer w) (inflight w) (next_req w) (waiters w) (exited w)
          (calls w) (console w).

Definition set_now (t : Z) (w : World) : World :=
  mkWorld (batch w) (timer w) (batchSize w) (timeout w) t (timers w)
          (next_timer w) (inflight w) (next_req w) (waiters w) (exited w)
          (calls w) (console w).

Definition set_timers (ts : list (TimerId * Z)) (w : World) : World :=
  mkWorld (batch w) (timer w) (batchSize w) (timeout w) (now w) ts
          (next_timer w) (inflight w) (next_req w) (waiters w) (exited w)
          (calls w) (console w).

Definition set_next_timer (n : TimerId) (w : World) : World :=
  mkWorld (batch w) (timer w) (batchSize w) (timeout w) (now w) (timers w)
          n (inflight w) (next_req w) (waiters w) (exited w)
          (calls w) (console w).

Definition set_inflight (rs : list Request) (w : World) : World :=
  mkWorld (batch w) (timer w) (batchSize w) (timeout w) (now w) (timers w)
          (next_timer w) rs (next_req w) (waiters w) (exited w)
          (calls w) (console w).

Definition set_next_req (n : ReqId) (w : World) : World :=
  mkWorld (batch w) (timer w) (batchSize w) (timeout w) (now w) (timers w)
          (next_timer w) (inflight w) n (waiters w) (exited w)
          (calls w) (console w).

Definition set_waiters (rs : list ReqId) (w : World) : World :=
  mkWorld (batch w) (timer w) (batchSize w) (timeout w) (now w) (timers w)
          (next_timer w) (inflight w) (next_req w) rs (exited w)
          (calls w) (console w).

Definition set_calls (cs : list Call) (w : World) : World :=
  mkWorld (batch w) (timer w) (batchSize w) (timeout w) (now w) (timers w)
          (next_timer w) (inflight w) (next_req w) (waiters w) (exited w)
          cs (console w).

Definition console_log (l : LogLine) (w : World) : World :=
  mkWorld (batch w) (timer w) (batchSize w) (timeout w) (now w) (timers w)
          (next_timer w) (inflight w) (next_req w) (waiters w) (exited w)
          (calls w) (console w ++ [l]).

(** [process.exit(code)] *)
Definition process_exit (code : Z) (w : World) : World :=
  mkWorld (batch w) (timer w) (batchSize w) (timeout w) (now w) (timers w)
          (next_timer w) (inflight w) (next_req w) (waiters w) (Some code)
          (calls w) (console w).

(** [new SimpleBatcher(batchSize, timeout)] in a fresh runtime at time [t0]. *)
Definition new_SimpleBatcher (bs to t0 : Z) : World :=
  mkWorld [] None bs to t0 [] 0%nat [] 0%nat [] None [] [].

(** [new SimpleBatcher()], both parameters defaulted. *)
Definition default_batcher (t0 : Z) : World :=
  new_SimpleBatcher BATCH_SIZE BATCH_TIMEOUT t0.

(* ================================================================= *)
(** ** Runtime primitives *)

(** Node honours a delay between 1 and 2^31-1 ms and replaces any other
    by 1 ms. *)
Definition TIMEOUT_MAX : Z := 2147483647.

Definition timer_delay (ms : Z) : Z :=
  if (1 <=? ms) && (ms <=? TIMEOUT_MAX) then ms else 1.

Definition is_handle (h : TimerId) (p : TimerId * Z) : bool := Nat.eqb (fst p) h.

Definition is_req (r : ReqId) (q : Request) : bool := Nat.eqb (rid q) r.

(** [setTimeout(() => this.flush(), ms)]: the only callback the batcher
    ever schedules is its own [flush], so a live timeout is its handle and
    due time. *)
Definition setTimeout (ms : Z) (w : World) : TimerId * World :=
  let h := next_timer w in
  (h, set_next_timer (S h)
        (set_timers (timers w ++ [(h, now w + timer_delay ms)]) w)).

(** [clearTimeout(h)]: a no-op on a handle that is not live any more. *)
Definition clearTimeout (h : TimerId) (w : World) : World :=
  set_timers (filter (fun p => negb (is_handle h p)) (timers w)) w.

(** [fetch(url, {method: "POST", body: JSON.stringify({casts})})]: the
    request leaves now; the caller is suspended on the promise. *)
Definition fetch (casts : list CastEvent) (w : World) : ReqId * World :=
  let r := next_req w in
  (r, set_next_req (S r)
        (set_inflight (inflight w ++ [mkReq r casts])
           (set_calls (calls w ++ [mkCall (now w) casts]) w))).

(* ================================================================= *)
(** ** class SimpleBatcher *)

(** [flush], lines 51-62: everything up to the [await]. *)
Definition flush (w : World) : World * FlushPromise :=
  if Nat.eqb (length (batch w)) 0 then (w, Resolved)
  else
    let batchToSend := batch w in
    let w := set_batch [] w in
    let w := match timer w with
             | Some h => set_timer None (clearTimeout h w)
             | None => w
             end in
    let (r, w) := fetch batchToSend w in
    (w, Pending r).

(** The [try] block after the [await], lines 68-72. *)
Definition flush_try (res : FetchResult) (batchToSend : list CastEvent)
                     (w : World) : World + Error :=
  match res with
  | FetchRejects reason => inr (TransportError reason)
  | FetchResponds status =>
      if negb (response_ok status) then inr (HttpError status)
      else inl (console_log (LogSent (length batchToSend)) w)
  end.

(** The [catch] block, lines 74-76. *)
Definition flush_catch (error : Error) (batchToSend : list CastEvent)
                       (w : World) : World :=
  let w := console_log (LogSendFailed error) w in
  set_batch (firstn RETRY_KEEP batchToSend ++ batch w) w.

(** [flush] from the [await] to its end: the new world and how the promise
    of this [flush] call ends. *)
Definition flush_resume (res : FetchResult) (batchToSend : list CastEvent)
                        (w : World) : World * Completion :=
  match flush_try res batchToSend w with
  | inl w' => (w', Fulfilled)
  | inr error => (flush_catch error batchToSend w, Fulfilled)
  end.

(** [resetTimer], lines 42-48. *)
Definition resetTimer (w : World) : World :=
  let w := match timer w with
           | Some h => clearTimeout h w
           | None => w
           end in
  if Nat.ltb 0 (length (batch w)) then
    let (h, w) := setTimeout (timeout w) w in
    set_timer (Some h) w
  else w.

(** [add], lines 32-40.  The promise of [this.flush()] is dropped. *)
Definition add (cast : CastEvent) (w : World) : World :=
  let w := set_batch (batch w ++ [cast]) w in
  if Z.of_nat (length (batch w)) >=? batchSize w
  then fst (flush w)
  else resetTimer w.

(* ================================================================= *)
(** ** Runtime turns *)

(** The SIGINT handler, lines 88-92, up to its [await]. *)
Definition on_sigint (w : World) : World :=
  let w := console_log LogShuttingDown w in
  match flush w with
  | (w, Resolved) => process_exit 0 w
  | (w, Pending r) => set_waiters (r :: waiters w) w
  end.

(** The runtime fires the live timeout [h]: it leaves the table and its
    callback [() => this.flush()] runs; nobody holds the promise. *)
Definition fire (h : TimerId) (w : World) : option World :=
  match find (is_handle h) (timers w) with
  | Some (_, due) =>
      if due <=? now w
      then Some (fst (flush (set_timers
                   (filter (fun p => negb (is_handle h p)) (timers w)) w)))
      else None
  | None => None
  end.

(** The runtime settles request [r] with [res]: the suspended [flush]
    resumes.  Were its promise to reject, the rejection would reach the
    SIGINT handler or stay unhandled, and either ends the process with
    status 1.  Otherwise the SIGINT handler, if it awaits this flush,
    resumes after it and calls [process.exit(0)]. *)
Definition settle (r : ReqId) (res : FetchResult) (w : World) : option World :=
  match find (is_req r) (inflight w) with
  | Some q =>
      let w := set_inflight (filter (fun q' => negb (is_req r q')) (inflight w)) w in
      let (w, done) := flush_resume res (payload q) w in
      match done with
      | Rejected _ => Some (process_exit 1 w)
      | Fulfilled =>
          if existsb (Nat.eqb r) (waiters w)
          then Some (process_exit 0 w)
          else Some w
      end
  | None => None
  end.

Inductive Label : Type :=
| LAdd (cast : CastEvent)            (* the consume loop calls batcher.add *)
| LFlush                             (* a bare call of batcher.flush() *)
| LFire (h : TimerId)                (* a timeout fires *)
| LSettle (r : ReqId) (res : FetchResult)
| LSigint                            (* the process receives SIGINT *)
| LTick (dt : Z).                    (* time passes *)

Definition step (l : Label) (w : World) : option World :=
  match exited w with
  | Some _ => None
  | None =>
      match l with
      | LAdd cast => Some (add cast w)
      | LFlush => Some (fst (flush w))
      | LFire h => fire h w
      | LSettle r res => settle r res w
      | LSigint => Some (on_sigint w)
      | LTick dt => if 0 <=? dt then Some (set_now (now w + dt) w) else None
      end
  end.

Fixpoint run (ls : list Label) (w : World) : option World :=
  match ls with
  | [] => Some w
  | l :: ls' =>
      match step l w with
      | Some w' => run ls' w'
      | None => None
      end
  end.

(** States the process can be in: those some schedule leads to from a
    freshly constructed batcher. *)
Definition reachable (w : World) : Prop :=
  exists bs to t0 ls, run ls (new_SimpleBatcher bs to t0) = Some w.

(* ================================================================= *)
(** ** Timed schedules *)

(** The runtime on time: going through the timeouts that were live at the
    start, oldest first, each one due by [t] fires at its due time, unless
    an earlier callback cleared it. *)
Fixpoint fire_due (t : Z) (due : list (TimerId * Z)) (w : World) : World :=
  match due with
  | [] => w
  | (h, d) :: rest =>
      if d <=? t then
        match step (LFire h) (set_now (Z.max (now w) d) w) with
        | Some w' => fire_due t rest w'
        | None => fire_due t rest w
        end
      else fire_due t rest w
  end.

(** Let the clock reach [t]. *)
Definition elapse (t : Z) (w : World) : World :=
  let w' := fire_due t (timers w) w in
  set_now (Z.max (now w') t) w'.

(** Line 126: [batcher.add({ fid, timestamp: Date.now() })]. *)
Definition on_cast (f : Z) (w : World) : World :=
  add (mkCast f (now w)) w.

(** The casts [(t, fid)] arrive one after the other, each at its time [t]. *)
Fixpoint casts_at (evs : list (Z * Z)) (w : World) : World :=
  match evs with
  | [] => w
  | (t, f) :: rest => casts_at rest (on_cast f (elapse t w))
  end.

(** Each cast of [evs] arrives no earlier than the one before it (the
    first: than [prev]) and less than [gap] after it. *)
Fixpoint rapid (gap prev : Z) (evs : list (Z * Z)) : Prop :=
  match evs with
  | [] => True
  | (t, _) :: rest => prev <= t < prev + gap /\ rapid gap t rest
  end.

Definition event_of (p : Z * Z) : CastEvent := mkCast (snd p) (fst p).

(** Arrival time of the last cast. *)
Definition last_time (t0 : Z) (evs : list (Z * Z)) : Z :=
  last (map fst evs) t0.

(* ================================================================= *)
(** ** Observations on schedules *)

(** The events handed to [add] along a schedule. *)
Fixpoint adds_of (ls : list Label) : list CastEvent :=
  match ls with
  | [] => []
  | LAdd cast :: ls' => cast :: adds_of ls'
  | _ :: ls' => adds_of ls'
  end.

Definition is_settle (l : Label) : bool :=
  match l with LSettle _ _ => true | _ => false end.



(** Payloads of the delivery calls issued after the first [n] ones. *)
Definition sent_after (n : nat) (w : World) : list CastEvent :=
  concat (map call_payload (skipn n (calls w))).

(** [fetch] failed: the promise rejected or the status is not 2xx. *)
Definition delivery_failed (res : FetchResult) : bool :=
  match res with
  | FetchRejects _ => true
  | FetchResponds status => negb (response_ok status)
  end.

(* ================================================================= *)
(** ** Connection manager: [startStream] and the module body *)

Module Hub.
(** The part of a hub event the consume loop looks at:
    [event.mergeMessageBody?.message?.data?.type] and [.fid]. *)
Record MessageData : Type := mkData { type : Z; fid : Z }.
Record Message : Type := mkMessage { data : option MessageData }.
Record MergeMessageBody : Type := mkBody { message : option Message }.
Record HubEvent : Type := mkEvent { mergeMessageBody : option MergeMessageBody }.

(** [event.mergeMessageBody?.message?.data], undefined = None. *)
Definition data_of (event : HubEvent) : option MessageData :=
  match mergeMessageBody event with
  | Some body =>
      match message body with
      | Some m => data m
      | None => None
      end
  | None => None
  end.
End Hub.

(** How the subscription's async iterator behaves after its elements. *)
Inductive StreamEnd : Type :=
| StreamThrows (e : string)          (* the iterator raises *)
| StreamCloses                       (* the iterator is done *)
| StreamOpen.                        (* still suspended on the next element *)

(** Argument of the [waitForReady] callback. *)
Inductive ReadyOutcome : Type :=
| Ready                              (* e is undefined *)
| NotReady (e : string).             (* deadline expired or connection error *)

(** [await client.subscribe(...)] *)
Inductive SubscribeOutcome : Type :=
| SubscribeOk (events : list Hub.HubEvent) (fin : StreamEnd)
| SubscribeErr                       (* isOk() is false *)
| SubscribeThrows (e : string).

(** What the environment does during one pass of the [while (true)] body. *)
Record Attempt : Type := mkAttempt {
  ready : ReadyOutcome;
  subscribed : SubscribeOutcome
}.

Inductive ConnLog : Type :=
| MsgMissingKey                      (* "NEYNAR_API_KEY environment variable is required" *)
| MsgStarting
| MsgWorkerUrl
| MsgConnected
| MsgListening
| MsgProcessed (castCount : nat)
| MsgConnectionError (e : string)
| MsgReconnecting.

(** Effects of the connection manager, in program order. *)
Inductive Action : Type :=
| ALog (m : ConnLog)                 (* console.log *)
| AError (m : ConnLog)               (* console.error *)
| ANewBatcher                        (* new SimpleBatcher() *)
| AOnSigint                          (* process.on("SIGINT", ...) *)
| ACreateClient                      (* getSSLHubRpcClient(...) *)
| AWaitForReady (ms : Z)             (* client.$.waitForReady(Date.now() + ms, ...) *)
| ASubscribe                         (* client.subscribe(...) *)
| AAdd (fid : Z)                     (* batcher.add({ fid, timestamp: Date.now() }) *)
| AClose                             (* client.close() *)
| ASleep (ms : Z)                    (* await new Promise(r => setTimeout(r, ms)) *)
| AExit (code : Z).                  (* process.exit(code) *)

(** How the promise awaited at line 103 ends. *)
Inductive CycleEnd : Type :=
| Rejects (e : string)
| NeverSettles.

Definition RECONNECT_DELAY : Z := 10000.
Definition READY_DEADLINE : Z := 10000.

(** The body of [for await (const event of stream)], lines 124-132, over
    the elements the stream yields. *)
Fixpoint consume (events : list Hub.HubEvent) (castCount : nat) : list Action :=
  match events with
  | [] => []
  | event :: rest =>
      match Hub.data_of event with
      | Some d =>
          if Hub.type d =? 1 then
            let castCount := S castCount in
            AAdd (Hub.fid d)
              :: (if Nat.eqb (castCount mod 100) 0
                  then [ALog (MsgProcessed castCount)] else [])
              ++ consume rest castCount
          else consume rest castCount
      | None => consume rest castCount
      end
  end.

(** The [waitForReady] callback, lines 104-142. *)
Definition ready_callback (a : Attempt) : list Action * CycleEnd :=
  match ready a with
  | NotReady e => ([], Rejects e)                      (* reject(e); return *)
  | Ready =>
      match subscribed a with
      | SubscribeThrows e =>
          ([ALog MsgConnected; ASubscribe; AClose], Rejects e)
      | SubscribeErr =>
          ([ALog MsgConnected; ASubscribe; AClose], Rejects "Failed to subscribe")
      | SubscribeOk events fin =>
          let body := [ALog MsgConnected; ASubscribe; ALog MsgListening]
                      ++ consume events 0 in
          match fin with
          | StreamThrows e => (body ++ [AClose], Rejects e)
          | StreamCloses => (body ++ [AClose], NeverSettles)
          | StreamOpen => (body, NeverSettles)
          end
      end
  end.

(** The [while (true)] loop, lines 94-149, against the attempts the
    environment plays; the trace stops where the script does, or where the
    awaited promise never settles. *)
Fixpoint connect_loop (script : list Attempt) : list Action :=
  match script with
  | [] => []
  | a :: rest =>
      let (acts, fin) := ready_callback a in
      [ACreateClient; AWaitForReady READY_DEADLINE] ++ acts ++
      match fin with
      | Rejects e =>
          [AError (MsgConnectionError e); ALog MsgReconnecting;
           ASleep RECONNECT_DELAY] ++ connect_loop rest
      | NeverSettles => []
      end
  end.

(** [startStream], lines 81-150. *)
Definition startStream (script : list Attempt) : list Action :=
  [ALog MsgStarting; ALog MsgWorkerUrl; ANewBatcher; AOnSigint]
  ++ connect_loop script.

(** [!NEYNAR_API_KEY]: the variable is unset or the empty string. *)
Definition key_missing (NEYNAR_API_KEY : option string) : bool :=
  match NEYNAR_API_KEY with
  | None => true
  | Some k => String.eqb k EmptyString
  end.

(** The module body: the credential check of lines 13-16, then line 152.
    The loop of [startStream] catches every error of a pass, so its promise
    never rejects and the [.catch] handler of lines 152-155 has nothing to
    run on. *)
Definition main (NEYNAR_API_KEY : option string) (script : list Attempt)
  : list Action :=
  if key_missing NEYNAR_API_KEY
  then [AError MsgMissingKey; AExit 1]
  else startStream script.

(** Actions that reach out of the process: connect, subscribe, deliver. *)
Definition is_io (a : Action) : bool :=
  match a with
  | ACreateClient | AWaitForReady _ | ASubscribe | AAdd _ | ANewBatcher
  | AOnSigint => true
  | _ => false
  end.

Definition is_exit (a : Action) : bool :=
  match a with AExit _ => true | _ => false end.

Definition is_close (a : Action) : bool :=
  match a with AClose => true | _ => false end.

(* ================================================================= *)
(** ** Scenarios and predicates used in the statements *)

(** [add] called for each event of [es] in turn, nothing in between. *)
Definition adds (es : list CastEvent) (w : World) : World :=
  fold_left (fun w cast => add cast w) es w.

(** The world in which [flush] reaches its [fetch]: the pending batch is
    swapped out and the idle timer cancelled. *)
Definition swapped (w : World) : World :=
  match timer w with
  | Some h => set_timer None (clearTimeout h (set_batch [] w))
  | None => set_batch [] w
  end.

(** No timeout is live, or exactly one is: the one [this.timer] holds,
    and then the pending batch is not empty. *)
Definition idle_inv (w : World) : Prop :=
  timers w = [] \/
  exists h d, timers w = [(h, d)] /\ timer w = Some h /\ batch w <> [].

(** The world in which request [r] carries only the head of its payload
    that a failed delivery keeps. *)
Definition truncate_req (r : ReqId) (w : World) : World :=
  set_inflight
    (map (fun q => if is_req r q
                   then mkReq (rid q) (firstn RETRY_KEEP (payload q))
                   else q)
         (inflight w)) w.



(** What a turn that settles nothing keeps: the calls made so far, the
    requests in flight, and every event that came in since call [n],
    either sent in a call after [n] or still pending, in arrival order. *)
Definition carried (n : nat) (acc : list CastEvent) (w : World) : Prop :=
  (n <= length (calls w))%nat /\
  sent_after n w ++ batch w = acc.




(** The delivery attempt behind request [r] is over: the request has
    settled, so it is not in flight. *)
Definition delivery_over (r : ReqId) (w : World) : Prop :=
  forall q, In q (inflight w) -> rid q <> r.

(** Reading of "an add that reaches the size threshold returns only after
    the delivery attempt has finished": in the world [add] returns, the
    request it issued is over. *)
Definition add_awaits_delivery (cast : CastEvent) (w : World) : Prop :=
  batchSize w <= Z.of_nat (length (batch w)) + 1 ->
  delivery_over (next_req w) (add cast w).

(** The batcher sits on the events [es] with its idle timer running since
    the add at time [t]; nothing was delivered since [w0]. *)
Definition waiting (w0 : World) (t : Z) (es : list CastEvent) (w : World) : Prop :=
  batch w = es /\ es <> [] /\
  (exists h, timers w = [(h, t + timeout w0)] /\ timer w = Some h) /\
  now w = t /\ calls w = calls w0 /\ exited w = None /\
  batchSize w = batchSize w0 /\ timeout w = timeout w0.

(** The clock and the timeouts only. *)
Definition is_clock (l : Label) : bool :=
  match l with LTick _ | LFire _ => true | _ => false end.

Definition is_create (a : Action) : bool :=
  match a with ACreateClient => true | _ => false end.

(** The pass [a] ends in an error: the awaited promise rejects. *)
Definition raises (a : Attempt) : Prop :=
  exists e, snd (ready_callback a) = Rejects e.

(** What the consume loop can do: hand a cast to the batcher, or log. *)
Definition add_or_log (a : Action) : bool :=
  match a with AAdd _ | ALog _ => true | _ => false end.

(* ================================================================= *)
(** ** Observations on connection traces *)

(** The test of line 124 and the fid of line 125: the fid of an event
    whose [mergeMessageBody?.message?.data?.type] is 1. *)
Definition cast_fid (event : Hub.HubEvent) : option Z :=
  match Hub.data_of event with
  | Some d => if Hub.type d =? 1 then Some (Hub.fid d) else None
  | None => None
  end.

(** The fids of the cast events among [events], in stream order. *)
Definition casts_of (events : list Hub.HubEvent) : list Z :=
  flat_map (fun event => match cast_fid event with
                         | Some f => [f]
                         | None => []
                         end) events.

(** The fids handed to [batcher.add] along a trace. *)
Fixpoint forwarded (acts : list Action) : list Z :=
  match acts with
  | [] => []
  | AAdd f :: rest => f :: forwarded rest
  | _ :: rest => forwarded rest
  end.

(** The counts reported by the "Processed n casts" lines of a trace. *)
Fixpoint progress (acts : list Action) : list nat :=
  match acts with
  | [] => []
  | ALog (MsgProcessed n) :: rest => n :: progress rest
  | _ :: rest => progress rest
  end.

(** The cast fids the subscription of pass [a] yields, if it gets one. *)
Definition pass_casts (a : Attempt) : list Z :=
  match ready a, subscribed a with
  | Ready, SubscribeOk events _ => casts_of events
  | _, _ => []
  end.

(** The passes of a script the loop gets to: all up to and including the
    first one whose promise never settles. *)
Fixpoint played (script : list Attempt) : list Attempt :=
  match script with
  | [] => []
  | a :: rest =>
      match snd (ready_callback a) with
      | Rejects _ => a :: played rest
      | NeverSettles => [a]
      end
  end.

(** The passes on which [client.close()] runs: the hub became ready and
    the callback ran to its [finally]. *)
Definition closes (a : Attempt) : bool :=
  match ready a, subscribed a with
  | NotReady _, _ => false
  | Ready, SubscribeOk _ StreamOpen => false
  | Ready, _ => true
  end.

(* ================================================================= *)
(** ** Predicates on schedules and payloads *)

(** Every request that settles along the schedule was delivered. *)
Definition all_succeed (ls : list Label) : bool :=
  forallb (fun l => match l with
                    | LSettle _ res => negb (delivery_failed res)
                    | _ => true
                    end) ls.

(** Every batch sent so far, settled or still in flight, satisfies [R]. *)
Definition payloads_sat (R : list CastEvent -> Prop) (w : World) : Prop :=
  (forall c, In c (calls w) -> R (call_payload c)) /\
  (forall q, In q (inflight w) -> R (payload q)).

(* ================================================================= *)
(** ** The collection endpoint: [src/server/src/index.ts]

    The Worker the batcher posts to.  Its D1 database is the table
    [cast_counts] of [schema.sql], a list of rows in insertion order, and
    the table [user_cache]; each SQL statement is the function on tables it
    denotes and is taken to succeed, so that the [catch] branches are
    reached by what a handler itself throws.  [Date.now()] is an input of
    every function that reads it, and the outcome of
    [Math.random() < 0.01] is an input of the batch handler. *)

Module CastCounts.
(** [cast_counts (fid, cast_time, hour_bucket)], primary key
    [(fid, hour_bucket)]. *)
Record Row : Type := mkRow { fid : Z; cast_time : Z; hour_bucket : Z }.
End CastCounts.

Module UserCache.
(** The columns of [user_cache] the queries read; primary key [fid]. *)
Record Row : Type := mkRow {
  fid : Z;
  username : option string;
  display_name : option string
}.
End UserCache.

Module Active.
(** A result row of the most-active query. *)
Record Row : Type := mkRow {
  fid : Z;
  cast_count : nat;
  username : option string;
  display_name : option string;
  last_cast_time : Z
}.
End Active.

Definition Table := list CastCounts.Row.

Definition HOUR_MS : Z := 1000 * 60 * 60.
Definition DAY_MS : Z := 24 * 60 * 60 * 1000.

(** The row is in conflict with the key [(f, b)]. *)
Definition conflicts (f b : Z) (r : CastCounts.Row) : bool :=
  (CastCounts.fid r =? f) && (CastCounts.hour_bucket r =? b).

(** [INSERT INTO cast_counts (fid, cast_time, hour_bucket) VALUES (f, t, b)
     ON CONFLICT(fid, hour_bucket) DO UPDATE SET cast_time = t'] *)
Fixpoint upsert (f t b t' : Z) (db : Table) : Table :=
  match db with
  | [] => [CastCounts.mkRow f t b]
  | r :: rest =>
      if conflicts f b r
      then CastCounts.mkRow (CastCounts.fid r) t' (CastCounts.hour_bucket r) :: rest
      else r :: upsert f t b t' rest
  end.

(** [timestamp || Date.now()]: an absent timestamp and the timestamp 0
    are falsy. *)
Definition timestamp_or (timestamp : option Z) (clock : Z) : Z :=
  match timestamp with
  | Some t => if t =? 0 then clock else t
  | None => clock
  end.

(** [recordCast], lines 15-27; [clock] is what [Date.now()] returns.
    [Math.floor] of the quotient is the floor division of [Z]. *)
Definition recordCast (db : Table) (fid : Z) (timestamp : option Z) (clock : Z)
  : Table :=
  let now := timestamp_or timestamp clock in
  let hourBucket := now / HOUR_MS in
  upsert fid now hourBucket now db.

(** [cleanOldCasts], lines 29-37:
    [DELETE FROM cast_counts WHERE cast_time < cutoff]. *)
Definition cleanOldCasts (db : Table) (clock : Z) : Table :=
  let cutoff := clock - DAY_MS in
  filter (fun r => negb (CastCounts.cast_time r <? cutoff)) db.

(** [WHERE cast_time > cutoff] with [cutoff = Date.now() - 24h]. *)
Definition recent (clock : Z) (r : CastCounts.Row) : bool :=
  clock - DAY_MS <? CastCounts.cast_time r.

(** [/api/stats], lines 123-127: [SELECT COUNT( * ) ... WHERE cast_time > ?] *)
Definition total_casts (db : Table) (clock : Z) : nat :=
  length (filter (recent clock) db).

(** [/api/stats], lines 129-133: [SELECT COUNT(DISTINCT fid) ...] *)
Definition unique_users (db : Table) (clock : Z) : nat :=
  length (nodup Z.eq_dec (map CastCounts.fid (filter (recent clock) db))).

(** [MIN] and [MAX] of a column: NULL over no rows. *)
Definition sql_min (l : list Z) : option Z :=
  match l with
  | [] => None
  | x :: rest => Some (fold_left Z.min rest x)
  end.

Definition sql_max (l : list Z) : option Z :=
  match l with
  | [] => None
  | x :: rest => Some (fold_left Z.max rest x)
  end.

(** [/api/user/:fid/stats], lines 91-100: count, first and last cast time
    of [fid] in the window. *)
Definition user_stats (db : Table) (fid : Z) (clock : Z)
  : nat * option Z * option Z :=
  let rows := filter (fun r => (CastCounts.fid r =? fid) && recent clock r) db in
  let times := map CastCounts.cast_time rows in
  (length rows, sql_min times, sql_max times).

(** [LEFT JOIN user_cache uc ON cc.fid = uc.fid]: the cache row of [fid],
    if there is one. *)
Definition cached (users : list UserCache.Row) (fid : Z) : option UserCache.Row :=
  find (fun u => UserCache.fid u =? fid) users.

(** One group of [GROUP BY cc.fid] over the rows [rows]. *)
Definition group_of (users : list UserCache.Row) (rows : Table) (fid : Z)
  : Active.Row :=
  let mine := filter (fun r => CastCounts.fid r =? fid) rows in
  Active.mkRow fid (length mine)
    (match cached users fid with Some u => UserCache.username u | None => None end)
    (match cached users fid with Some u => UserCache.display_name u | None => None end)
    (match sql_max (map CastCounts.cast_time mine) with Some t => t | None => 0 end).

(** [GROUP BY cc.fid] hands the groups on in ascending fid. *)
Fixpoint insert_asc (f : Z) (sorted : list Z) : list Z :=
  match sorted with
  | [] => [f]
  | h :: rest =>
      if f <=? h then f :: h :: rest else h :: insert_asc f rest
  end.

Definition sort_asc (fids : list Z) : list Z :=
  fold_right insert_asc [] fids.

(** [ORDER BY cast_count DESC]: SQL leaves the order among equal counts
    open; D1 keeps the groups that tie in the order they come in, that of
    ascending fid, and so does this sort: a group goes before the later
    groups it ties with. *)
Fixpoint insert_desc (g : Active.Row) (sorted : list Active.Row) : list Active.Row :=
  match sorted with
  | [] => [g]
  | h :: rest =>
      if Nat.leb (Active.cast_count h) (Active.cast_count g)
      then g :: h :: rest
      else h :: insert_desc g rest
  end.

Definition order_desc (groups : list Active.Row) : list Active.Row :=
  fold_right insert_desc [] groups.

(** [LIMIT n]: a negative [n] means no limit. *)
Definition sql_limit {A : Type} (n : Z) (rows : list A) : list A :=
  if n <? 0 then rows else firstn (Z.to_nat n) rows.

(** [getMostActiveCasters], lines 39-61. *)
Definition getMostActiveCasters (db : Table) (users : list UserCache.Row)
                                (limit : Z) (clock : Z) : list Active.Row :=
  let rows := filter (recent clock) db in
  let fids := sort_asc (nodup Z.eq_dec (map CastCounts.fid rows)) in
  sql_limit limit (order_desc (map (group_of users rows) fids)).

(** An element of the posted [casts] array: [null], or an object with a
    numeric [fid] and, possibly, a numeric [timestamp]. *)
Inductive Item : Type :=
| ItemNull
| ItemCast (fid : Z) (timestamp : option Z).

(** What [await c.req.json()] and the destructuring of line 157 give. *)
Inductive Body : Type :=
| BodyThrows (message : string)       (* not JSON, or JSON [null] *)
| CastsNotArray                       (* [casts] missing or not an array *)
| CastsArray (items : list Item).

Inductive Payload : Type :=
| BatchProcessed (processed : nat) (timestamp : Z)
| CastRecorded (fid : Z) (timestamp : Z)
| Failure (error : string).

Record Response : Type := mkResponse { status : Z; body : Payload }.

(** The message of the TypeError that reading [cast.fid] of [null] raises. *)
Definition NULL_ITEM : string :=
  "Cannot read properties of null (reading 'fid')".

(** The loop of lines 170-172; [clock i] is what [Date.now()] returns
    while item number [i] is recorded.  An item that makes the loop throw
    leaves what was recorded before it in place. *)
Fixpoint record_items (items : list Item) (i : nat) (clock : nat -> Z) (db : Table)
  : Table * option string :=
  match items with
  | [] => (db, None)
  | ItemNull :: _ => (db, Some NULL_ITEM)
  | ItemCast fid timestamp :: rest =>
      record_items rest (S i) clock (recordCast db fid timestamp (clock i))
  end.

(** [POST /api/batch-casts], lines 155-193.  [draw] is the outcome of
    [Math.random() < 0.01]; the clock is read once per recorded item, then
    by the cleanup, then for the response. *)
Definition batch_casts (request : Body) (draw : bool) (clock : nat -> Z) (db : Table)
  : Response * Table :=
  match request with
  | BodyThrows message => (mkResponse 500 (Failure message), db)
  | CastsNotArray => (mkResponse 400 (Failure "Invalid casts data"), db)
  | CastsArray items =>
      match record_items items 0 clock db with
      | (db, Some message) => (mkResponse 500 (Failure message), db)
      | (db, None) =>
          let n := length items in
          let db := if draw then cleanOldCasts db (clock n) else db in
          (mkResponse 200 (BatchProcessed n (clock (S n))), db)
      end
  end.

(** [POST /api/cast], lines 196-226, for a body with a numeric or absent
    [fid]; [!fid] holds of an absent fid and of 0. *)
Definition post_cast (fid : option Z) (timestamp : option Z) (clock : nat -> Z)
                     (db : Table) : Response * Table :=
  match fid with
  | None => (mkResponse 400 (Failure "fid is required"), db)
  | Some f =>
      if f =? 0 then (mkResponse 400 (Failure "fid is required"), db)
      else (mkResponse 200 (CastRecorded f (timestamp_or timestamp (clock 1%nat))),
            recordCast db f timestamp (clock 0%nat))
  end.

(** The body the batcher posts, line 65: [JSON.stringify({ casts })], as
    the Worker parses it. *)
Definition body_of (casts : list CastEvent) : Body :=
  CastsArray (map (fun c => ItemCast (fid c) (Some (timestamp c))) casts).

(** The primary key of a row and the keys of a table. *)
Definition key_of (r : CastCounts.Row) : Z * Z :=
  (CastCounts.fid r, CastCounts.hour_bucket r).

(** [SELECT cast_time FROM cast_counts WHERE fid = f AND hour_bucket = b] *)
Definition lookup (f b : Z) (db : Table) : option Z :=
  option_map CastCounts.cast_time (find (conflicts f b) db).

(** A table as the schema and [recordCast] keep it: the primary key is
    unique and every row sits in the hour bucket of its cast time. *)
Definition well_formed (db : Table) : Prop :=
  NoDup (map key_of db) /\
  Forall (fun r => CastCounts.hour_bucket r = CastCounts.cast_time r / HOUR_MS) db.

(** The writes a posted batch of stamped events amounts to: one upsert
    per event, in order. *)
Definition store (casts : list CastEvent) (db : Table) : Table :=
  fold_left (fun d c => upsert (fid c) (timestamp c) (timestamp c / HOUR_MS)
                               (timestamp c) d) casts db.

(** The time of the last event of [casts] that falls on the key [(f, b)],
    [d] if there is none. *)
Definition latest (f b : Z) (casts : list CastEvent) (d : option Z) : option Z :=
  fold_left (fun acc c => if (fid c =? f) && (timestamp c / HOUR_MS =? b)
                          then Some (timestamp c) else acc) casts d.

(** Every event carries a timestamp other than 0, as those the stream
    processor stamps with [Date.now()] do. *)
Definition stamped (casts : list CastEvent) : Prop :=
  Forall (fun c => timestamp c <> 0) casts.

(** No element of the array is [null]. *)
Definition all_casts (items : list Item) : bool :=
  forallb (fun i => match i with ItemCast _ _ => true | ItemNull => false end) items.

(** [x] is ranked no lower than [y]: it has at least as many counted
    rows. *)
Definition outranks (x y : Active.Row) : Prop :=
  (Active.cast_count y <= Active.cast_count x)%nat.

Definition is_sleep (a : Action) : bool :=
  match a with ASleep _ => true | _ => false end.

(* ================================================================= *)
(** ** Shutdown and survivors: predicates *)





(* ================================================================= *)
(** * Properties *)

(** ** What one call of [flush] does *)

Lemma length_zero_nil (A : Type) (l : list A) :
  Nat.eqb (length l) 0 = true <-> l = [].
Proof.
  destruct l; simpl; split; intro H; try reflexivity; discriminate.
Qed.

Lemma flush_empty (w : World) : batch w = [] -> flush w = (w, Resolved).
Proof.
  intro H. unfold flush. rewrite H. reflexivity.
Qed.

Lemma flush_nonempty (w : World) :
  batch w <> [] ->
  flush w = (snd (fetch (batch w) (swapped w)), Pending (next_req w)).
Proof.
  intro H. unfold flush, swapped.
  destruct (Nat.eqb (length (batch w)) 0) eqn:E.
  - apply length_zero_nil in E. contradiction.
  - simpl. destruct (timer w); reflexivity.
Qed.

Lemma swapped_fields (w : World) :
  batch (swapped w) = [] /\ timer (swapped w) = None /\
  calls (swapped w) = calls w /\ inflight (swapped w) = inflight w /\
  now (swapped w) = now w /\ exited (swapped w) = exited w /\
  next_req (swapped w) = next_req w /\ waiters (swapped w) = waiters w /\
  batchSize (swapped w) = batchSize w /\ timeout (swapped w) = timeout w /\
  console (swapped w) = console w /\ next_timer (swapped w) = next_timer w.
Proof.
  unfold swapped. destruct (timer w) eqn:E; simpl; repeat split;
    try reflexivity; exact E.
Qed.

Lemma swapped_timers (w : World) :
  timers (swapped w) =
  match timer w with
  | Some h => filter (fun p => negb (is_handle h p)) (timers w)
  | None => timers w
  end.
Proof.
  unfold swapped. destruct (timer w); reflexivity.
Qed.

(** Field by field: the world a [flush] of a non-empty batch leaves. *)
Lemma flush_fields (w : World) :
  batch w <> [] ->
  let w' := fst (flush w) in
  batch w' = [] /\ timer w' = None /\
  calls w' = calls w ++ [mkCall (now w) (batch w)] /\
  inflight w' = inflight w ++ [mkReq (next_req w) (batch w)] /\
  next_req w' = S (next_req w) /\
  timers w' = timers (swapped w) /\
  now w' = now w /\ exited w' = exited w /\ waiters w' = waiters w /\
  batchSize w' = batchSize w /\ timeout w' = timeout w /\
  console w' = console w /\ next_timer w' = next_timer w.
Proof.
  intro H. rewrite (flush_nonempty w H).
  destruct (swapped_fields w) as (B & T & C & I & N & E & R & Wt & Bs & To & Co & Nt).
  cbn [fst snd fetch]. simpl.
  rewrite B, T, C, I, N, E, R, Wt, Bs, To, Co, Nt. repeat split; reflexivity.
Qed.

(* ================================================================= *)
(** ** The idle timer invariant *)

Lemma is_handle_refl (h : TimerId) (d : Z) : is_handle h (h, d) = true.
Proof. unfold is_handle. simpl. apply Nat.eqb_refl. Qed.

Lemma idle_inv_cleared (w : World) :
  idle_inv w ->
  match timer w with
  | Some h => filter (fun p => negb (is_handle h p)) (timers w)
  | None => timers w
  end = [].
Proof.
  intros [E | (h & d & E & T & _)].
  - rewrite E. destruct (timer w); reflexivity.
  - rewrite T, E. simpl. rewrite is_handle_refl. reflexivity.
Qed.

Lemma flush_no_timers (w : World) :
  idle_inv w -> timers (fst (flush w)) = [].
Proof.
  intro I. destruct (batch w) eqn:B.
  - rewrite (flush_empty w B). simpl.
    destruct I as [E | (h & d & _ & _ & N)]; [exact E | congruence].
  - assert (N : batch w <> []) by congruence.
    destruct (flush_fields w N) as (_ & _ & _ & _ & _ & T & _).
    rewrite T, swapped_timers. apply idle_inv_cleared, I.
Qed.

Lemma flush_timers_nil (w : World) :
  timers w = [] -> timers (fst (flush w)) = [].
Proof.
  intro E. apply flush_no_timers. left. exact E.
Qed.

Lemma flush_idle_inv (w : World) : idle_inv w -> idle_inv (fst (flush w)).
Proof.
  intro I. left. apply flush_no_timers, I.
Qed.

Lemma resetTimer_idle_inv (w : World) :
  idle_inv w \/ (exists h d, timers w = [(h, d)] /\ timer w = Some h) ->
  idle_inv (resetTimer w).
Proof.
  intro I.
  assert (C : match timer w with
              | Some h => filter (fun p => negb (is_handle h p)) (timers w)
              | None => timers w
              end = []).
  { destruct I as [I | (h & d & E & T)].
    - apply idle_inv_cleared, I.
    - rewrite T, E. simpl. rewrite is_handle_refl. reflexivity. }
  unfold resetTimer.
  destruct (timer w) as [h|] eqn:T.
  - unfold clearTimeout. simpl. rewrite C.
    destruct (batch w) eqn:B; simpl.
    + left. reflexivity.
    + right. eexists _, _. repeat split. simpl. rewrite B. discriminate.
  - destruct (batch w) eqn:B; simpl.
    + left. exact C.
    + right. rewrite C. eexists _, _. repeat split. simpl. rewrite B. discriminate.
Qed.

Lemma add_idle_inv (cast : CastEvent) (w : World) :
  idle_inv w -> idle_inv (add cast w).
Proof.
  intro I. unfold add.
  set (w1 := set_batch (batch w ++ [cast]) w).
  assert (I1 : idle_inv w1).
  { destruct I as [E | (h & d & E & T & _)].
    - left. exact E.
    - right. exists h, d. repeat split; try assumption.
      simpl. destruct (batch w); discriminate. }
  destruct (Z.of_nat (length (batch w1)) >=? batchSize w1).
  - apply flush_idle_inv, I1.
  - apply resetTimer_idle_inv. left. exact I1.
Qed.

Lemma find_is_handle (h : TimerId) (ts : list (TimerId * Z)) (p : TimerId * Z) :
  find (is_handle h) ts = Some p -> In p ts /\ fst p = h.
Proof.
  intro F. apply find_some in F. destruct F as [I E]. split; [exact I|].
  unfold is_handle in E. apply Nat.eqb_eq in E. exact E.
Qed.

Lemma fire_idle_inv (h : TimerId) (w w' : World) :
  idle_inv w -> fire h w = Some w' -> idle_inv w'.
Proof.
  intros I F. unfold fire in F.
  destruct (find (is_handle h) (timers w)) as [[h' due]|] eqn:Fd; [|discriminate].
  destruct (due <=? now w); [|discriminate].
  injection F as <-.
  apply find_is_handle in Fd. destruct Fd as [In' Eh]. simpl in Eh. subst h'.
  left.
  destruct I as [E | (h0 & d & E & T & N)].
  - rewrite E in In'. destruct In'.
  - rewrite E in In'. destruct In' as [Eq | []]. injection Eq as -> ->.
    destruct (batch w) eqn:B; [congruence|].
    set (w0 := set_timers _ w).
    assert (N0 : batch w0 <> []) by (simpl; rewrite B; discriminate).
    destruct (flush_fields w0 N0) as (_ & _ & _ & _ & _ & Tm & _).
    rewrite Tm, swapped_timers. subst w0. simpl. rewrite T, E. simpl.
    rewrite is_handle_refl. reflexivity.
Qed.

Lemma flush_resume_frame (res : FetchResult) (sent : list CastEvent) (w : World) :
  let w' := fst (flush_resume res sent w) in
  timers w' = timers w /\ timer w' = timer w /\ calls w' = calls w /\
  inflight w' = inflight w /\ exited w' = exited w /\ now w' = now w /\
  waiters w' = waiters w /\ next_req w' = next_req w /\
  batchSize w' = batchSize w /\ timeout w' = timeout w /\
  next_timer w' = next_timer w /\
  batch w' = (if delivery_failed res then firstn RETRY_KEEP sent else []) ++ batch w /\
  snd (flush_resume res sent w) = Fulfilled.
Proof.
  unfold flush_resume, flush_try, flush_catch, delivery_failed.
  destruct res as [reason | status]; simpl.
  - repeat split; reflexivity.
  - destruct (response_ok status); simpl; repeat split; reflexivity.
Qed.

Lemma settle_idle_inv (r : ReqId) (res : FetchResult) (w w' : World) :
  idle_inv w -> settle r res w = Some w' -> idle_inv w'.
Proof.
  intros I S. unfold settle in S.
  destruct (find (is_req r) (inflight w)) as [q|]; [|discriminate].
  set (w0 := set_inflight _ w) in S.
  pose proof (flush_resume_frame res (payload q) w0) as F.
  destruct (flush_resume res (payload q) w0) as [w1 done].
  simpl in F. destruct F as (Ts & T & _ & _ & _ & _ & _ & _ & _ & _ & _ & B & D).
  subst done.
  assert (I1 : idle_inv w1).
  { destruct I as [E | (h & d & E & Tw & N)].
    - left. rewrite Ts. exact E.
    - right. exists h, d. rewrite Ts, T, B. repeat split; try assumption.
      simpl. intro A. apply app_eq_nil in A. destruct A as [_ A]. contradiction. }
  destruct (existsb (Nat.eqb r) (waiters w1)); injection S as <-; exact I1.
Qed.

Lemma on_sigint_idle_inv (w : World) : idle_inv w -> idle_inv (on_sigint w).
Proof.
  intro I. unfold on_sigint.
  set (w0 := console_log LogShuttingDown w).
  assert (I0 : idle_inv w0) by exact I.
  pose proof (flush_no_timers w0 I0) as T.
  destruct (flush w0) as [w1 [|r]]; simpl in T; left; exact T.
Qed.

Lemma step_idle_inv (l : Label) (w w' : World) :
  idle_inv w -> step l w = Some w' -> idle_inv w'.
Proof.
  intros I S. unfold step in S.
  destruct (exited w); [discriminate|].
  destruct l as [cast | | h | r res | | dt].
  - injection S as <-. apply add_idle_inv, I.
  - injection S as <-. apply flush_idle_inv, I.
  - eapply fire_idle_inv; eassumption.
  - eapply settle_idle_inv; eassumption.
  - injection S as <-. apply on_sigint_idle_inv, I.
  - destruct (0 <=? dt); [|discriminate]. injection S as <-. exact I.
Qed.

Lemma run_idle_inv (ls : list Label) :
  forall w w', idle_inv w -> run ls w = Some w' -> idle_inv w'.
Proof.
  induction ls as [|l ls IH]; intros w w' I R; simpl in R.
  - injection R as <-. exact I.
  - destruct (step l w) as [w1|] eqn:S; [|discriminate].
    eapply IH; [|exact R]. eapply step_idle_inv; eassumption.
Qed.

Lemma reachable_idle_inv (w : World) : reachable w -> idle_inv w.
Proof.
  intros (bs & to & t0 & ls & R).
  eapply run_idle_inv; [|exact R]. left. reflexivity.
Qed.

(** C5. In every state reachable by add, flush, timer-fire (and settle,
    SIGINT, clock) steps: at most one idle timer is live; a live idle timer
    implies a non-empty pending batch; an empty pending batch implies no
    live idle timer. *)
Theorem C5_idle_timer_invariant (w : World) :
  reachable w ->
  (length (timers w) <= 1)%nat /\
  (timers w <> [] -> batch w <> []) /\
  (batch w = [] -> timers w = []).
Proof.
  intro R. apply reachable_idle_inv in R.
  destruct R as [E | (h & d & E & T & N)].
  - rewrite E. simpl. repeat split; try lia; congruence.
  - rewrite E. simpl. repeat split; try lia; congruence.
Qed.

Lemma C5_witness :
  let w := add (mkCast 7 1000) (default_batcher 1000) in
  reachable w /\
  (length (timers w) <= 1)%nat /\
  (timers w <> [] -> batch w <> []) /\
  (batch w = [] -> timers w = []).
Proof.
  intro w.
  assert (R : reachable w).
  { exists BATCH_SIZE, BATCH_TIMEOUT, 1000, [LAdd (mkCast 7 1000)]. reflexivity. }
  split; [exact R | exact (C5_idle_timer_invariant w R)].
Defined.

(* ================================================================= *)
(** ** [add] below and at the size threshold *)

Lemma resetTimer_fields (w : World) :
  batch w <> [] ->
  let w' := resetTimer w in
  batch w' = batch w /\ calls w' = calls w /\ inflight w' = inflight w /\
  now w' = now w /\ exited w' = exited w /\ waiters w' = waiters w /\
  batchSize w' = batchSize w /\ timeout w' = timeout w /\
  next_req w' = next_req w /\
  timer w' = Some (next_timer w) /\
  timers w' = timers (swapped w) ++ [(next_timer w, now w + timer_delay (timeout w))].
Proof.
  intro N. unfold resetTimer. rewrite swapped_timers.
  assert (L : Nat.ltb 0 (length (batch w)) = true).
  { destruct (batch w); [congruence | reflexivity]. }
  destruct (timer w) as [h|]; simpl; rewrite L; simpl;
    repeat split; reflexivity.
Qed.

Lemma add_below (cast : CastEvent) (w : World) :
  Z.of_nat (length (batch w)) + 1 < batchSize w ->
  let w' := add cast w in
  batch w' = batch w ++ [cast] /\ calls w' = calls w /\
  inflight w' = inflight w /\ now w' = now w /\ exited w' = exited w /\
  waiters w' = waiters w /\ batchSize w' = batchSize w /\
  timeout w' = timeout w /\ next_req w' = next_req w /\
  timer w' = Some (next_timer w) /\
  timers w' = timers (swapped w) ++ [(next_timer w, now w + timer_delay (timeout w))].
Proof.
  intro L. unfold add.
  set (w1 := set_batch (batch w ++ [cast]) w).
  assert (E : (Z.of_nat (length (batch w1)) >=? batchSize w1) = false).
  { simpl. rewrite length_app. simpl. rewrite Z.geb_leb. apply Z.leb_gt. lia. }
  rewrite E.
  assert (N : batch w1 <> []) by (simpl; destruct (batch w); discriminate).
  pose proof (resetTimer_fields w1 N) as F. simpl in F.
  rewrite swapped_timers in F. simpl in F. rewrite swapped_timers.
  exact F.
Qed.

Lemma add_at_threshold (cast : CastEvent) (w : World) :
  batchSize w <= Z.of_nat (length (batch w)) + 1 ->
  add cast w = fst (flush (set_batch (batch w ++ [cast]) w)).
Proof.
  intro L. unfold add.
  set (w1 := set_batch (batch w ++ [cast]) w).
  assert (E : (Z.of_nat (length (batch w1)) >=? batchSize w1) = true).
  { simpl. rewrite length_app. simpl. rewrite Z.geb_leb. apply Z.leb_le. lia. }
  rewrite E. reflexivity.
Qed.

Lemma add_at_threshold_fields (cast : CastEvent) (w : World) :
  batchSize w <= Z.of_nat (length (batch w)) + 1 ->
  let w' := add cast w in
  batch w' = [] /\ timer w' = None /\
  calls w' = calls w ++ [mkCall (now w) (batch w ++ [cast])] /\
  inflight w' = inflight w ++ [mkReq (next_req w) (batch w ++ [cast])] /\
  now w' = now w /\ exited w' = exited w /\ waiters w' = waiters w /\
  batchSize w' = batchSize w /\ timeout w' = timeout w /\
  timers w' = timers (swapped w).
Proof.
  intro L. simpl. rewrite (add_at_threshold cast w L).
  set (w1 := set_batch (batch w ++ [cast]) w).
  assert (N : batch w1 <> []) by (simpl; destruct (batch w); discriminate).
  destruct (flush_fields w1 N) as (B & T & C & I & _ & Tm & Nw & E & Wt & Bs & To & _).
  rewrite Tm, !swapped_timers.
  repeat split; assumption.
Qed.

Lemma adds_app (es1 es2 : list CastEvent) (w : World) :
  adds (es1 ++ es2) w = adds es2 (adds es1 w).
Proof. unfold adds. apply fold_left_app. Qed.

(** Events added while the batch stays below the threshold pile up in
    it and issue nothing. *)
Lemma adds_below (es : list CastEvent) :
  forall w,
    Z.of_nat (length (batch w) + length es) < batchSize w ->
    let w' := adds es w in
    batch w' = batch w ++ es /\ calls w' = calls w /\
    inflight w' = inflight w /\ now w' = now w /\ exited w' = exited w /\
    batchSize w' = batchSize w /\ timeout w' = timeout w.
Proof.
  induction es as [|e es IH]; intros w L; simpl.
  - rewrite app_nil_r. repeat split; reflexivity.
  - simpl in L.
    assert (L1 : Z.of_nat (length (batch w)) + 1 < batchSize w) by lia.
    destruct (add_below e w L1) as (B & C & I & Nw & E & _ & Bs & To & _).
    assert (L2 : Z.of_nat (length (batch (add e w)) + length es)
                 < batchSize (add e w)).
    { rewrite B, Bs, length_app. simpl. lia. }
    destruct (IH (add e w) L2) as (B' & C' & I' & Nw' & E' & Bs' & To').
    fold (adds es (add e w)).
    rewrite B', C', I', Nw', E', Bs', To', B, C, I, Nw, E, Bs, To.
    rewrite <- app_assoc. repeat split; reflexivity.
Qed.

(** C3. Starting from an empty pending batch, [batchSize] events added in
    immediate succession produce exactly one delivery call, carrying
    exactly those events, issued by the last add; the pending batch is
    empty right after that add. *)
Theorem C3_size_triggered_flush (w : World) (es : list CastEvent) :
  batch w = [] ->
  1 <= batchSize w ->
  Z.of_nat (length es) = batchSize w ->
  calls (adds (removelast es) w) = calls w /\
  calls (adds es w) = calls w ++ [mkCall (now w) es] /\
  batch (adds es w) = [].
Proof.
  intros B P L.
  destruct es as [|e0 es0] using rev_ind; [simpl in L; lia|].
  clear IHes0. rename e0 into e.
  rewrite removelast_last, adds_app.
  rewrite length_app in L. simpl in L.
  assert (L0 : Z.of_nat (length (batch w) + length es0) < batchSize w).
  { rewrite B. simpl. lia. }
  destruct (adds_below es0 w L0) as (B0 & C0 & _ & N0 & _ & Bs0 & _).
  rewrite B in B0. simpl in B0.
  assert (L1 : batchSize (adds es0 w) <= Z.of_nat (length (batch (adds es0 w))) + 1).
  { rewrite Bs0, B0. lia. }
  destruct (add_at_threshold_fields e (adds es0 w) L1) as (B1 & _ & C1 & _).
  change (adds [e] (adds es0 w)) with (add e (adds es0 w)).
  rewrite B1, C1, C0, N0, B0. repeat split; reflexivity.
Qed.

Lemma C3_witness :
  let w := default_batcher 0 in
  let es := map (fun n => mkCast (Z.of_nat n) 0) (seq 0 20) in
  calls (adds (removelast es) w) = calls w /\
  calls (adds es w) = calls w ++ [mkCall (now w) es] /\
  batch (adds es w) = [].
Proof.
  intros w es.
  apply (C3_size_triggered_flush w es).
  - reflexivity.
  - unfold w, default_batcher, BATCH_SIZE. simpl. lia.
  - reflexivity.
Defined.

(* ================================================================= *)
(** ** A delivery that fails *)

Lemma is_req_truncated (r : ReqId) (q : Request) :
  is_req r (mkReq (rid q) (firstn RETRY_KEEP (payload q))) = is_req r q.
Proof. reflexivity. Qed.

Lemma find_truncate (r : ReqId) (rs : list Request) :
  find (is_req r)
       (map (fun q => if is_req r q
                      then mkReq (rid q) (firstn RETRY_KEEP (payload q))
                      else q) rs)
  = option_map (fun q => mkReq (rid q) (firstn RETRY_KEEP (payload q)))
               (find (is_req r) rs).
Proof.
  induction rs as [|q rs IH]; cbn [map find]; [reflexivity|].
  destruct (is_req r q) eqn:E.
  - rewrite is_req_truncated, E. reflexivity.
  - rewrite E. exact IH.
Qed.

Lemma filter_truncate (r : ReqId) (rs : list Request) :
  filter (fun q' => negb (is_req r q'))
         (map (fun q => if is_req r q
                        then mkReq (rid q) (firstn RETRY_KEEP (payload q))
                        else q) rs)
  = filter (fun q' => negb (is_req r q')) rs.
Proof.
  induction rs as [|q rs IH]; cbn [map filter]; [reflexivity|].
  destruct (is_req r q) eqn:E.
  - rewrite is_req_truncated, E. cbn [negb]. exact IH.
  - rewrite E. cbn [negb]. rewrite IH. reflexivity.
Qed.

Lemma flush_resume_failed (res : FetchResult) (sent : list CastEvent) (w : World) :
  delivery_failed res = true ->
  exists error,
    flush_resume res sent w =
    (set_batch (firstn RETRY_KEEP sent ++ batch w)
               (console_log (LogSendFailed error) w), Fulfilled).
Proof.
  intro F. unfold flush_resume, flush_try.
  destruct res as [reason | status]; simpl in F.
  - exists (TransportError reason). reflexivity.
  - rewrite F. exists (HttpError status). reflexivity.
Qed.

Lemma flush_resume_failed_head (res : FetchResult) (sent : list CastEvent) (w : World) :
  delivery_failed res = true ->
  flush_resume res (firstn RETRY_KEEP sent) w = flush_resume res sent w.
Proof.
  intro F. unfold flush_resume, flush_try.
  destruct res as [reason | status]; simpl in F.
  - unfold flush_catch. rewrite firstn_firstn. reflexivity.
  - rewrite F. cbv beta iota. unfold flush_catch. rewrite firstn_firstn. reflexivity.
Qed.

(** C2. When the delivery of a sent batch fails (the fetch rejects or the
    status is not 2xx), the first 10 events of the sent batch, in order,
    go back to the front of the pending batch, whatever it holds by then;
    that is min(n, 10) events; the rest is dropped for good: the world
    after the failure is the one a sent batch cut to its first 10 events
    would have left.  The failure is not raised: the flush promise is
    fulfilled and the process is not brought down. *)
Theorem C2_failed_delivery_requeues_head
  (r : ReqId) (q : Request) (res : FetchResult) (w : World) :
  exited w = None ->
  find (is_req r) (inflight w) = Some q ->
  delivery_failed res = true ->
  exists w',
    step (LSettle r res) w = Some w' /\
    batch w' = firstn 10 (payload q) ++ batch w /\
    length (firstn 10 (payload q)) = Nat.min (length (payload q)) 10 /\
    step (LSettle r res) (truncate_req r w) = Some w' /\
    (forall w0, snd (flush_resume res (payload q) w0) = Fulfilled) /\
    exited w' = (if existsb (Nat.eqb r) (waiters w) then Some 0 else None) /\
    calls w' = calls w /\ timers w' = timers w /\ timer w' = timer w.
Proof.
  intros X F D.
  assert (S2 : settle r res (truncate_req r w) = settle r res w).
  { unfold settle, truncate_req. cbn [inflight set_inflight].
    rewrite find_truncate, F, filter_truncate. cbn [option_map payload].
    set (w0 := set_inflight _ (set_inflight _ w)).
    set (w1 := set_inflight _ w).
    assert (E : w0 = w1) by reflexivity. rewrite E.
    rewrite (flush_resume_failed_head res (payload q) w1 D). reflexivity. }
  unfold step. cbn [exited truncate_req set_inflight]. rewrite X.
  fold (truncate_req r w). rewrite S2.
  unfold settle. rewrite F.
  set (w1 := set_inflight _ w).
  destruct (flush_resume_failed res (payload q) w1 D) as [error E].
  rewrite E.
  set (w2 := set_batch _ _).
  assert (Wt : waiters w2 = waiters w) by reflexivity. rewrite Wt.
  destruct (existsb (Nat.eqb r) (waiters w)); eexists; repeat split;
    try reflexivity;
    try (apply length_firstn || (rewrite length_firstn; apply Nat.min_comm));
    try (intro w0; apply flush_resume_frame).
  exact X.
Qed.

Lemma C2_witness :
  let w := adds [mkCast 21 7; mkCast 22 8]
             (adds (map (fun n => mkCast (Z.of_nat n) 0) (seq 0 20))
                   (default_batcher 0)) in
  exists w',
    step (LSettle 0%nat (FetchResponds 503)) w = Some w' /\
    batch w' = map (fun n => mkCast (Z.of_nat n) 0) (seq 0 10)
               ++ [mkCast 21 7; mkCast 22 8].
Proof.
  intro w.
  destruct (C2_failed_delivery_requeues_head 0%nat
              (mkReq 0%nat (map (fun n => mkCast (Z.of_nat n) 0) (seq 0 20)))
              (FetchResponds 503) w)
    as (w' & S & B & _); try reflexivity.
  exists w'. split; [exact S | exact B].
Defined.

(* ================================================================= *)
(** ** While a delivery call is in flight *)

Lemma flush_effect (w : World) :
  let w' := fst (flush w) in
  batch w' = [] /\
  calls w' = calls w ++ match batch w with
                        | [] => []
                        | _ => [mkCall (now w) (batch w)]
                        end /\
  (forall q, In q (inflight w) -> In q (inflight w')) /\
  exited w' = exited w /\ now w' = now w /\ waiters w' = waiters w.
Proof.
  destruct (batch w) eqn:B.
  - rewrite (flush_empty w B). simpl. rewrite app_nil_r.
    repeat split; auto.
  - assert (N : batch w <> []) by congruence.
    destruct (flush_fields w N) as (B' & _ & C & I & _ & _ & Nw & E & Wt & _).
    simpl. rewrite B', C, I, Nw, E, Wt, B. repeat split; auto.
    intros q H. apply in_or_app. left. exact H.
Qed.

Lemma sent_after_snoc (n : nat) (cs : list Call) (c : Call) :
  (n <= length cs)%nat ->
  concat (map call_payload (skipn n (cs ++ [c])))
  = concat (map call_payload (skipn n cs)) ++ call_payload c.
Proof.
  intro L. rewrite skipn_app.
  replace (n - length cs)%nat with 0%nat by lia.
  rewrite map_app, concat_app. simpl. rewrite app_nil_r. reflexivity.
Qed.

Lemma flush_carried (n : nat) (acc : list CastEvent) (w : World) :
  carried n acc w -> carried n acc (fst (flush w)).
Proof.
  intros [L A]. destruct (flush_effect w) as (B & C & _).
  unfold carried, sent_after. rewrite B, C, app_nil_r.
  destruct (batch w) eqn:Bw.
  - rewrite app_nil_r. split; [exact L|].
    unfold sent_after in A. rewrite app_nil_r in A. exact A.
  - rewrite length_app. simpl. split; [lia|].
    rewrite sent_after_snoc by exact L. exact A.
Qed.

Lemma step_carried (n : nat) (acc : list CastEvent) (l : Label) (w w' : World) :
  is_settle l = false ->
  step l w = Some w' ->
  carried n acc w ->
  carried n (acc ++ adds_of [l]) w'.
Proof.
  intros NS S K. unfold step in S.
  destruct (exited w); [discriminate|].
  destruct l as [cast | | h | r res | | dt]; try discriminate;
    cbn [adds_of]; rewrite ?app_nil_r.
  - injection S as <-.
    assert (K1 : carried n (acc ++ [cast]) (set_batch (batch w ++ [cast]) w)).
    { destruct K as [L A]. split; [exact L|].
      unfold sent_after in *. simpl. rewrite app_assoc, A. reflexivity. }
    destruct (Z_lt_le_dec (Z.of_nat (length (batch w)) + 1) (batchSize w)) as [Lt | Ge].
    + destruct (add_below cast w Lt) as (B & C & _).
      destruct K1 as [L A]. unfold carried, sent_after in *.
      rewrite B, C. split; assumption.
    + rewrite (add_at_threshold cast w Ge). apply flush_carried, K1.
  - injection S as <-. apply flush_carried, K.
  - unfold fire in S.
    destruct (find (is_handle h) (timers w)) as [[h' due]|]; [|discriminate].
    destruct (due <=? now w); [|discriminate].
    injection S as <-. apply flush_carried. exact K.
  - injection S as <-. unfold on_sigint.
    pose proof (flush_carried n acc (console_log LogShuttingDown w) K) as K1.
    destruct (flush (console_log LogShuttingDown w)) as [w1 [|r]]; exact K1.
  - destruct (0 <=? dt); [|discriminate]. injection S as <-. exact K.
Qed.






Lemma settle_keeps_pending (r : ReqId) (res : FetchResult) (w w' : World) :
  step (LSettle r res) w = Some w' ->
  calls w' = calls w /\
  batch w' = (if delivery_failed res
              then match find (is_req r) (inflight w) with
                   | Some q => firstn RETRY_KEEP (payload q)
                   | None => []
                   end
              else []) ++ batch w.
Proof.
  intro S. unfold step in S.
  destruct (exited w); [discriminate|]. unfold settle in S.
  destruct (find (is_req r) (inflight w)) as [q|]; [|discriminate].
  set (w0 := set_inflight _ w) in S.
  pose proof (flush_resume_frame res (payload q) w0) as F.
  destruct (flush_resume res (payload q) w0) as [w1 done].
  simpl in F. destruct F as (_ & _ & C & _ & _ & _ & _ & _ & _ & _ & _ & B & D).
  subst done.
  destruct (existsb (Nat.eqb r) (waiters w1)); injection S as <-;
    split; assumption.
Qed.






(* ================================================================= *)
(** ** After a failed delivery *)


Lemma settle_frame (r : ReqId) (res : FetchResult) (w w' : World) :
  step (LSettle r res) w = Some w' ->
  timers w' = timers w /\ timer w' = timer w /\ next_req w' = next_req w /\
  inflight w' = filter (fun q' => negb (is_req r q')) (inflight w) /\
  exists q, find (is_req r) (inflight w) = Some q.
Proof.
  intro S. unfold step in S.
  destruct (exited w); [discriminate|]. unfold settle in S.
  destruct (find (is_req r) (inflight w)) as [q|]; [|discriminate].
  set (w0 := set_inflight _ w) in S.
  pose proof (flush_resume_frame res (payload q) w0) as F.
  destruct (flush_resume res (payload q) w0) as [w1 done].
  simpl in F. destruct F as (Ts & T & _ & I & _ & _ & _ & Nr & _ & _ & _ & _ & D).
  subst done.
  destruct (existsb (Nat.eqb r) (waiters w1)); injection S as <-;
    repeat split; try assumption; eexists; reflexivity.
Qed.








Lemma find_is_req (r : ReqId) (rs : list Request) (q : Request) :
  find (is_req r) rs = Some q -> In q rs /\ rid q = r.
Proof.
  intro F. apply find_some in F. destruct F as [I E]. split; [exact I|].
  unfold is_req in E. apply Nat.eqb_eq in E. exact E.
Qed.


(* ================================================================= *)
(** ** Shutdown *)


Lemma sigint_idle (w : World) :
  exited w = None ->
  batch w = [] ->
  exists w',
    step LSigint w = Some w' /\
    exited w' = Some 0 /\ calls w' = calls w /\ inflight w' = inflight w /\
    (forall l, step l w' = None).
Proof.
  intros X B.
  exists (process_exit 0 (console_log LogShuttingDown w)).
  split.
  - unfold step. rewrite X. unfold on_sigint.
    rewrite flush_empty by exact B. reflexivity.
  - repeat split.
Qed.














(* ================================================================= *)
(** ** Who waits for a flush *)

(** C9, as stated. That an add reaching the size threshold returns only
    after the delivery attempt has finished fails: with 19 events pending in a
    default batcher, the 20th add returns while the request it issued is
    still in flight. *)
Lemma C9_add_returns_before_delivery :
  let w := adds (map (fun n => mkCast (Z.of_nat n) 0) (seq 0 19))
                (default_batcher 0) in
  ~ add_awaits_delivery (mkCast 19 0) w.
Proof.
  intros w H. unfold add_awaits_delivery in H.
  assert (L : batchSize w <= Z.of_nat (length (batch w)) + 1)
    by (vm_compute; discriminate).
  specialize (H L).
  destruct (add_at_threshold_fields (mkCast 19 0) w L) as (_ & _ & _ & I & _).
  apply (H (mkReq (next_req w) (batch w ++ [mkCast 19 0]))).
  - rewrite I. apply in_or_app. right. left. reflexivity.
  - reflexivity.
Qed.

(** C9, amended. An add that brings the pending batch to the size
    threshold starts the delivery call and returns at once: in the world
    it returns, the request is in flight with the whole batch as payload,
    nobody awaits it, and neither the success nor the failure handling has
    run (nothing logged, nothing re-queued).  A timer-triggered flush is
    not awaited either.  Only the SIGINT handler awaits its flush: the
    request is recorded as awaited and the process has not exited. *)
Theorem C9_only_shutdown_awaits_flush (cast : CastEvent) (w : World) :
  (batchSize w <= Z.of_nat (length (batch w)) + 1 ->
   let w' := add cast w in
   In (mkReq (next_req w) (batch w ++ [cast])) (inflight w') /\
   ~ delivery_over (next_req w) w' /\
   waiters w' = waiters w /\ console w' = console w /\ batch w' = []) /\
  (batch w <> [] ->
   (forall h w', step (LFire h) w = Some w' ->
      In (mkReq (next_req w) (batch w)) (inflight w') /\
      waiters w' = waiters w /\ console w' = console w) /\
   (forall w', step LSigint w = Some w' ->
      In (mkReq (next_req w) (batch w)) (inflight w') /\
      waiters w' = next_req w :: waiters w /\ exited w' = None)).
Proof.
  split.
  - intros L w'.
    assert (E : w' = fst (flush (set_batch (batch w ++ [cast]) w)))
      by apply (add_at_threshold cast w L).
    set (w1 := set_batch (batch w ++ [cast]) w) in E.
    assert (N : batch w1 <> []) by (simpl; destruct (batch w); discriminate).
    destruct (flush_fields w1 N) as (B & _ & _ & I & _ & _ & _ & _ & Wt & _ & _ & Co & _).
    rewrite <- E in B, I, Wt, Co.
    assert (In' : In (mkReq (next_req w) (batch w ++ [cast])) (inflight w')).
    { rewrite I. apply in_or_app. right. left. reflexivity. }
    split; [exact In'|]. split.
    + intro O. apply (O _ In'). reflexivity.
    + repeat split; assumption.
  - intro N. split.
    + intros h w' S. unfold step in S.
      destruct (exited w); [discriminate|]. unfold fire in S.
      destruct (find (is_handle h) (timers w)) as [[h' due]|]; [|discriminate].
      destruct (due <=? now w); [|discriminate].
      injection S as <-.
      set (w0 := set_timers _ w).
      assert (N0 : batch w0 <> []) by exact N.
      destruct (flush_fields w0 N0) as (_ & _ & _ & I & _ & _ & _ & _ & Wt & _ & _ & Co & _).
      split; [|split; assumption].
      rewrite I. apply in_or_app. right. left. reflexivity.
    + intros w' S. unfold step in S.
      destruct (exited w) eqn:X; [discriminate|].
      injection S as <-. unfold on_sigint.
      set (w0 := console_log LogShuttingDown w).
      assert (N0 : batch w0 <> []) by exact N.
      rewrite (flush_nonempty w0 N0).
      pose proof (flush_fields w0 N0) as F.
      rewrite (flush_nonempty w0 N0) in F. cbn [fst] in F.
      destruct F as (_ & _ & _ & I & _ & _ & _ & E & Wt & _).
      cbn [inflight waiters exited set_waiters].
      split; [|split].
      * rewrite I. apply in_or_app. right. left. reflexivity.
      * rewrite Wt. reflexivity.
      * rewrite E. exact X.
Qed.

Lemma C9_witness :
  let w := adds [mkCast 1 0] (new_SimpleBatcher 2 5000 0) in
  let w' := add (mkCast 2 0) w in
  In (mkReq 0%nat [mkCast 1 0; mkCast 2 0]) (inflight w') /\
  waiters w' = [] /\ console w' = [] /\
  exists w'', step LSigint w = Some w'' /\ waiters w'' = [0%nat] /\ exited w'' = None.
Proof.
  intros w w'.
  destruct (C9_only_shutdown_awaits_flush (mkCast 2 0) w) as [A B].
  assert (L : batchSize w <= Z.of_nat (length (batch w)) + 1)
    by (vm_compute; discriminate).
  destruct (A L) as (I & _ & Wt & Co & _).
  assert (N : batch w <> []) by (vm_compute; discriminate).
  destruct (B N) as [_ Sg].
  destruct (step LSigint w) as [w''|] eqn:S; [|vm_compute in S; discriminate].
  destruct (Sg w'' eq_refl) as (_ & Ws & X).
  split; [exact I|]. split; [exact Wt|]. split; [exact Co|].
  exists w''. split; [reflexivity|]. split; [exact Ws | exact X].
Defined.

(* ================================================================= *)
(** ** The idle window *)

Lemma timer_delay_in_range (ms : Z) :
  1 <= ms <= TIMEOUT_MAX -> timer_delay ms = ms.
Proof.
  intros [L U]. unfold timer_delay.
  apply Z.leb_le in L. apply Z.leb_le in U. rewrite L, U. reflexivity.
Qed.

Lemma last_cons_default (A : Type) (a d : A) (l : list A) :
  last (a :: l) d = last l a.
Proof.
  revert a d. induction l as [|b l IH]; intros a d; [reflexivity|].
  change (last (a :: b :: l) d) with (last (b :: l) d).
  rewrite (IH b d), (IH b a). reflexivity.
Qed.

Lemma elapse_early (w0 : World) (t : Z) (es : list CastEvent) (w : World) (t' : Z) :
  waiting w0 t es w -> t' < t + timeout w0 ->
  elapse t' w = set_now (Z.max t t') w.
Proof.
  intros (_ & _ & (h & Ts & _) & Nw & _) L.
  unfold elapse. rewrite Ts. cbn [fire_due].
  assert (E : (t + timeout w0 <=? t') = false) by (apply Z.leb_gt; lia).
  rewrite E, Nw. reflexivity.
Qed.

Lemma elapse_late (w0 : World) (t : Z) (es : list CastEvent) (w : World) (T : Z) :
  waiting w0 t es w -> 0 <= timeout w0 -> t + timeout w0 <= T ->
  calls (elapse T w) = calls w0 ++ [mkCall (t + timeout w0) es] /\
  batch (elapse T w) = [].
Proof.
  intros (B & N & (h & Ts & Tm) & Nw & C & X & _) P L.
  unfold elapse. rewrite Ts. cbn [fire_due].
  assert (E : (t + timeout w0 <=? T) = true) by (apply Z.leb_le; lia).
  rewrite E, Nw.
  assert (M : Z.max t (t + timeout w0) = t + timeout w0) by lia.
  rewrite M.
  set (wd := set_now (t + timeout w0) w).
  assert (F : step (LFire h) wd
              = Some (fst (flush (set_timers
                   (filter (fun p => negb (is_handle h p)) (timers wd)) wd)))).
  { unfold step. cbn [exited wd set_now]. rewrite X. unfold fire.
    cbn [timers wd set_now now]. rewrite Ts. cbn [find].
    rewrite is_handle_refl, Z.leb_refl. reflexivity. }
  rewrite F.
  set (w1 := set_timers _ wd).
  assert (N1 : batch w1 <> []) by (cbn; rewrite B; exact N).
  destruct (flush_fields w1 N1) as (B1 & _ & C1 & _).
  cbn [batch calls set_now]. rewrite B1, C1.
  split; [|reflexivity]. cbn. rewrite C, B. reflexivity.
Qed.

Lemma on_cast_waiting (w0 : World) (t : Z) (es : list CastEvent) (w : World)
      (t' f : Z) :
  waiting w0 t es w ->
  1 <= timeout w0 <= TIMEOUT_MAX ->
  t <= t' < t + timeout w0 ->
  Z.of_nat (length es) + 1 < batchSize w0 ->
  waiting w0 t' (es ++ [mkCast f t']) (on_cast f (elapse t' w)).
Proof.
  intros W R [L1 L2] S.
  rewrite (elapse_early w0 t es w t' W L2).
  destruct W as (B & N & (h & Ts & Tm) & Nw & C & X & Bs & To).
  replace (Z.max t t') with t' by lia.
  set (w' := set_now t' w). unfold on_cast.
  change (now w') with t'.
  assert (Lt : Z.of_nat (length (batch w')) + 1 < batchSize w').
  { cbn. rewrite B, Bs. exact S. }
  destruct (add_below (mkCast f t') w' Lt)
    as (B' & C' & _ & Nw' & X' & _ & Bs' & To' & _ & Tm' & Ts').
  unfold waiting. rewrite B', C', Nw', X', Bs', To'.
  cbn [batch calls now exited batchSize timeout w' set_now].
  rewrite B. split; [reflexivity|]. split.
  { destruct es; discriminate. }
  split.
  { exists (next_timer w'). split; [|exact Tm'].
    rewrite Ts', swapped_timers.
    cbn [timer timers timeout now w' set_now].
    rewrite Tm, Ts. cbn [filter]. rewrite is_handle_refl. cbn [negb app].
    rewrite To, (timer_delay_in_range _ R). reflexivity. }
  repeat split; assumption.
Qed.

Lemma first_cast_waiting (w0 : World) (t1 f : Z) :
  idle_inv w0 -> batch w0 = [] -> exited w0 = None ->
  1 <= timeout w0 <= TIMEOUT_MAX ->
  now w0 <= t1 ->
  1 < batchSize w0 ->
  waiting w0 t1 [mkCast f t1] (on_cast f (elapse t1 w0)).
Proof.
  intros I B X R L S.
  assert (Ts : timers w0 = []).
  { destruct I as [E | (h & d & _ & _ & N)]; [exact E | congruence]. }
  unfold elapse. rewrite Ts. cbn [fire_due].
  replace (Z.max (now w0) t1) with t1 by lia.
  set (w' := set_now t1 w0). unfold on_cast. change (now w') with t1.
  assert (Lt : Z.of_nat (length (batch w')) + 1 < batchSize w').
  { cbn. rewrite B. simpl. lia. }
  destruct (add_below (mkCast f t1) w' Lt)
    as (B' & C' & _ & Nw' & X' & _ & Bs' & To' & _ & Tm' & Ts').
  unfold waiting. rewrite B', C', Nw', X', Bs', To'.
  cbn [batch calls now exited batchSize timeout w' set_now].
  rewrite B. split; [reflexivity|]. split; [discriminate|]. split.
  { exists (next_timer w'). split; [|exact Tm'].
    rewrite Ts', swapped_timers.
    cbn [timer timers timeout now w' set_now].
    rewrite Ts. rewrite (timer_delay_in_range _ R).
    destruct (timer w0); reflexivity. }
  repeat split; assumption.
Qed.

Lemma casts_rapid_waiting (w0 : World) (rest : list (Z * Z)) :
  forall t es w,
    waiting w0 t es w ->
    1 <= timeout w0 <= TIMEOUT_MAX ->
    rapid (timeout w0) t rest ->
    Z.of_nat (length es + length rest) < batchSize w0 ->
    waiting w0 (last_time t rest) (es ++ map event_of rest) (casts_at rest w).
Proof.
  induction rest as [|[t' f] rest IH]; intros t es w W R P S.
  - simpl. rewrite app_nil_r. exact W.
  - simpl in P. destruct P as [P1 P2]. simpl in S.
    unfold last_time. cbn [map fst]. rewrite last_cons_default.
    fold (last_time t' rest). cbn [casts_at].
    replace (es ++ event_of (t', f) :: map event_of rest)
      with ((es ++ [mkCast f t']) ++ map event_of rest)
      by (rewrite <- app_assoc; reflexivity).
    apply IH; try assumption.
    + apply (on_cast_waiting w0 t es w t' f W R P1). lia.
    + rewrite length_app. simpl. lia.
Qed.

(** Letting the clock reach [t] is a schedule of the transition system
    made of clock ticks and timeout firings only. *)
Lemma fire_due_is_run (t : Z) (due : list (TimerId * Z)) :
  forall w, exited w = None ->
    exists ls, forallb is_clock ls = true /\
               run ls w = Some (fire_due t due w) /\
               exited (fire_due t due w) = None.
Proof.
  induction due as [|[h d] due IH]; intros w X.
  - exists []. repeat split. exact X.
  - cbn [fire_due]. destruct (d <=? t).
    + destruct (step (LFire h) (set_now (Z.max (now w) d) w)) as [w'|] eqn:S.
      * assert (X' : exited w' = None).
        { unfold step in S. cbn [exited set_now] in S. rewrite X in S.
          unfold fire in S.
          destruct (find _ _) as [[h' due']|]; [|discriminate].
          destruct (due' <=? _); [|discriminate].
          injection S as <-.
          destruct (flush_effect (set_timers
                      (filter (fun p => negb (is_handle h p))
                              (timers (set_now (Z.max (now w) d) w)))
                      (set_now (Z.max (now w) d) w))) as (_ & _ & _ & E & _).
          exact (eq_trans E X). }
        destruct (IH w' X') as (ls & Q & R & X'').
        exists (LTick (Z.max (now w) d - now w) :: LFire h :: ls).
        split; [exact Q|]. split; [|exact X''].
        cbn [run]. unfold step at 1. rewrite X.
        assert (P : (0 <=? Z.max (now w) d - now w) = true) by (apply Z.leb_le; lia).
        rewrite P.
        replace (now w + (Z.max (now w) d - now w)) with (Z.max (now w) d) by lia.
        rewrite S. exact R.
      * apply IH, X.
    + apply IH, X.
Qed.

Lemma run_snoc (ls : list Label) (l : Label) :
  forall w w' w'',
    run ls w = Some w' -> step l w' = Some w'' ->
    run (ls ++ [l]) w = Some w''.
Proof.
  induction ls as [|l0 ls IH]; intros w w' w'' R S; cbn [run app] in *.
  - injection R as ->. rewrite S. reflexivity.
  - destruct (step l0 w) as [wm|]; [|discriminate].
    apply (IH wm w' w'' R S).
Qed.

Lemma elapse_is_run (t : Z) (w : World) :
  exited w = None ->
  exists ls, forallb is_clock ls = true /\ run ls w = Some (elapse t w).
Proof.
  intro X. destruct (fire_due_is_run t (timers w) w X) as (ls & Q & R & X').
  exists (ls ++ [LTick (Z.max (now (fire_due t (timers w) w)) t
                        - now (fire_due t (timers w) w))]).
  split.
  - rewrite forallb_app, Q. reflexivity.
  - apply (run_snoc ls _ w _ _ R). unfold step. rewrite X'.
    set (w' := fire_due t (timers w) w).
    assert (P : (0 <=? Z.max (now w') t - now w') = true) by (apply Z.leb_le; lia).
    rewrite P.
    replace (now w' + (Z.max (now w') t - now w')) with (Z.max (now w') t) by lia.
    reflexivity.
Qed.

(** C4. From an empty pending batch, k events (1 <= k < batchSize), each
    added less than [timeout] ms after the one before, issue no delivery
    call while they arrive and re-arm the idle window each time: up to any
    time before (last add + timeout) there is still no call, and by any
    time from then on there is exactly one, issued at (last add + timeout)
    and carrying exactly the k events. *)
Theorem C4_idle_window_restarts_on_add
  (w : World) (t1 f1 : Z) (rest : list (Z * Z)) (T : Z) :
  reachable w ->
  exited w = None ->
  batch w = [] ->
  1 <= timeout w <= TIMEOUT_MAX ->
  now w <= t1 ->
  rapid (timeout w) t1 rest ->
  Z.of_nat (length ((t1, f1) :: rest)) < batchSize w ->
  let evs := (t1, f1) :: rest in
  let w1 := casts_at evs w in
  let tl := last_time (now w) evs in
  calls w1 = calls w /\
  batch w1 = map event_of evs /\
  (T < tl + timeout w -> calls (elapse T w1) = calls w) /\
  (tl + timeout w <= T ->
     calls (elapse T w1) = calls w ++ [mkCall (tl + timeout w) (map event_of evs)] /\
     batch (elapse T w1) = []).
Proof.
  intros Rc X B R L P S evs w1 tl.
  assert (I : idle_inv w) by (apply reachable_idle_inv, Rc).
  cbn [length] in S.
  assert (W1 : waiting w t1 [mkCast f1 t1] (on_cast f1 (elapse t1 w))).
  { apply first_cast_waiting; try assumption. lia. }
  assert (W : waiting w tl (map event_of evs) w1).
  { assert (E : tl = last_time t1 rest) by apply last_cons_default.
    rewrite E.
    apply (casts_rapid_waiting w rest t1 [mkCast f1 t1] _ W1 R P).
    simpl. lia. }
  pose proof W as (Bw & _ & _ & _ & Cw & _).
  split; [exact Cw|]. split; [exact Bw|]. split.
  - intro E. rewrite (elapse_early w tl _ w1 T W E). exact Cw.
  - intro E. apply (elapse_late w tl _ w1 T W); lia.
Qed.

Lemma C4_witness :
  let w := default_batcher 0 in
  let evs := [(100, 7); (3000, 8); (7000, 9)] in
  calls (elapse 11999 (casts_at evs w)) = [] /\
  calls (elapse 12000 (casts_at evs w))
  = [mkCall 12000 [mkCast 7 100; mkCast 8 3000; mkCast 9 7000]].
Proof.
  intros w evs.
  assert (Rc : reachable w).
  { exists BATCH_SIZE, BATCH_TIMEOUT, 0, []. reflexivity. }
  assert (R : 1 <= timeout w <= TIMEOUT_MAX) by (vm_compute; split; discriminate).
  assert (L : now w <= 100) by (vm_compute; discriminate).
  assert (P : rapid (timeout w) 100 [(3000, 8); (7000, 9)]).
  { vm_compute. repeat split; discriminate. }
  assert (S : Z.of_nat (length evs) < batchSize w) by (vm_compute; reflexivity).
  split.
  - destruct (C4_idle_window_restarts_on_add w 100 7 _ 11999
                Rc eq_refl eq_refl R L P S) as (_ & _ & E & _).
    apply E. vm_compute. reflexivity.
  - destruct (C4_idle_window_restarts_on_add w 100 7 _ 12000
                Rc eq_refl eq_refl R L P S) as (_ & _ & _ & E).
    apply E. vm_compute. discriminate.
Defined.

(* ================================================================= *)
(** ** Connection manager *)

Lemma consume_add_or_log (events : list Hub.HubEvent) :
  forall castCount, forallb add_or_log (consume events castCount) = true.
Proof.
  induction events as [|event rest IH]; intro n; cbn [consume]; [reflexivity|].
  destruct (Hub.data_of event) as [d|]; [|apply IH].
  destruct (Hub.type d =? 1); [|apply IH].
  cbn [forallb add_or_log andb]. rewrite forallb_app, IH.
  destruct (Nat.eqb (S n mod 100) 0); reflexivity.
Qed.

Lemma existsb_add_or_log (p : Action -> bool) (acts : list Action) :
  (forall a, add_or_log a = true -> p a = false) ->
  forallb add_or_log acts = true -> existsb p acts = false.
Proof.
  intros H. induction acts as [|a acts IH]; intro F; [reflexivity|].
  simpl in F. apply andb_prop in F. destruct F as [F1 F2].
  simpl. rewrite (H a F1), (IH F2). reflexivity.
Qed.

(** Every pass that ends in an error is caught, logged and followed, after
    the fixed delay, by the next pass: the loop goes on with the rest of
    the script. *)
Lemma retry_after_error (a : Attempt) (e : string) (rest : list Attempt) :
  snd (ready_callback a) = Rejects e ->
  connect_loop (a :: rest)
  = [ACreateClient; AWaitForReady READY_DEADLINE] ++ fst (ready_callback a)
    ++ [AError (MsgConnectionError e); ALog MsgReconnecting;
        ASleep RECONNECT_DELAY]
    ++ connect_loop rest.
Proof.
  intro E. cbn [connect_loop].
  destruct (ready_callback a) as [acts fin]. simpl in E. subst fin.
  reflexivity.
Qed.

Lemma ready_callback_never_exits (a : Attempt) :
  existsb is_exit (fst (ready_callback a)) = false.
Proof.
  unfold ready_callback.
  destruct (ready a); [|reflexivity].
  destruct (subscribed a) as [events fin | | e]; try reflexivity.
  assert (C : existsb is_exit (consume events 0) = false).
  { apply existsb_add_or_log; [|apply consume_add_or_log].
    intros [] H; try discriminate; reflexivity. }
  destruct fin; cbn [fst]; rewrite ?existsb_app; cbn [existsb is_exit];
    rewrite ?existsb_app, C; reflexivity.
Qed.

(** No error ends the process: the loop never calls [process.exit]. *)
Lemma connect_loop_never_exits (script : list Attempt) :
  existsb is_exit (connect_loop script) = false.
Proof.
  induction script as [|a rest IH]; [reflexivity|].
  cbn [connect_loop].
  pose proof (ready_callback_never_exits a) as H.
  destruct (ready_callback a) as [acts fin]. simpl in H.
  destruct fin; cbn [app existsb is_exit orb]; rewrite existsb_app, H;
    cbn [existsb is_exit orb]; [exact IH | reflexivity].
Qed.

Lemma ready_callback_creates_nothing (a : Attempt) :
  filter is_create (fst (ready_callback a)) = [].
Proof.
  unfold ready_callback.
  destruct (ready a); [|reflexivity].
  destruct (subscribed a) as [events fin | | e]; try reflexivity.
  assert (C : filter is_create (consume events 0) = []).
  { pose proof (consume_add_or_log events 0) as F.
    induction (consume events 0) as [|x l IH]; [reflexivity|].
    simpl in F. apply andb_prop in F. destruct F as [F1 F2].
    simpl. destruct x; try discriminate; apply IH, F2. }
  destruct fin; cbn [fst]; rewrite ?filter_app; cbn [filter is_create];
    rewrite ?filter_app, C; reflexivity.
Qed.

(** There is no cap on the attempts: a script of n failing passes is
    answered by n connection attempts. *)
Lemma retries_unbounded (script : list Attempt) :
  Forall raises script ->
  length (filter is_create (connect_loop script)) = length script.
Proof.
  induction 1 as [|a rest [e E] _ IH]; [reflexivity|].
  rewrite (retry_after_error a e rest E).
  cbn [app filter is_create length]. rewrite filter_app.
  rewrite ready_callback_creates_nothing. cbn [app filter is_create].
  rewrite IH. reflexivity.
Qed.

(** An error after the hub became ready (subscription refused or thrown,
    stream raising) closes the client before the retry. *)
Lemma error_after_ready_closes (a : Attempt) (e : string) :
  ready a = Ready ->
  snd (ready_callback a) = Rejects e ->
  exists body, fst (ready_callback a) = body ++ [AClose].
Proof.
  unfold ready_callback. intros R E. rewrite R in *.
  destruct (subscribed a) as [events fin | | e'].
  - destruct fin; try discriminate. eexists. reflexivity.
  - exists [ALog MsgConnected; ASubscribe]. reflexivity.
  - exists [ALog MsgConnected; ASubscribe]. reflexivity.
Qed.

(** C6, at the connect stage. When [waitForReady] reports an error
    (deadline expiry or connection error), the pass is: create the client,
    wait, log the error, sleep 10 s, and go on with the next pass.  The
    client is not closed on this path: [client.close()] is not among the
    actions, unlike on the subscribe and mid-stream paths
    ([error_after_ready_closes]). *)
Theorem C6_connect_error_leaves_client_open
  (e : string) (sub : SubscribeOutcome) (rest : list Attempt) :
  let cycle := [ACreateClient; AWaitForReady 10000;
                AError (MsgConnectionError e); ALog MsgReconnecting;
                ASleep 10000] in
  connect_loop (mkAttempt (NotReady e) sub :: rest) = cycle ++ connect_loop rest /\
  existsb is_close cycle = false /\
  existsb is_exit cycle = false.
Proof.
  repeat split.
Qed.

(** C8. With the credential missing (unset or empty), the process logs
    the error and exits with status 1, a non-zero status, and does nothing
    else: no client is created, nothing is subscribed to, no batcher exists
    and nothing is handed to one. *)
Theorem C8_missing_key_exits_first
  (NEYNAR_API_KEY : option string) (script : list Attempt) :
  key_missing NEYNAR_API_KEY = true ->
  main NEYNAR_API_KEY script = [AError MsgMissingKey; AExit 1] /\
  (forall code, In (AExit code) (main NEYNAR_API_KEY script) -> code <> 0) /\
  existsb is_io (main NEYNAR_API_KEY script) = false.
Proof.
  intro M. unfold main. rewrite M.
  split; [reflexivity|]. split; [|reflexivity].
  intros code [H | [H | []]]; [discriminate|].
  injection H as <-. discriminate.
Qed.

Lemma C8_witness :
  let script := [mkAttempt Ready SubscribeErr] in
  main None script = [AError MsgMissingKey; AExit 1] /\
  main (Some EmptyString) script = [AError MsgMissingKey; AExit 1].
Proof.
  intro script. split.
  - apply (C8_missing_key_exits_first None script eq_refl).
  - apply (C8_missing_key_exits_first (Some EmptyString) script eq_refl).
Defined.

(** With the credential present the process does start streaming. *)
Lemma main_with_key (k : string) (script : list Attempt) :
  k <> EmptyString ->
  main (Some k) script = startStream script.
Proof.
  intro N. unfold main, key_missing.
  destruct (String.eqb k EmptyString) eqn:E; [|reflexivity].
  apply String.eqb_eq in E. contradiction.
Qed.

(* ================================================================= *)
(** * Further properties of [stream.ts] *)

(** ** The consume loop *)

Lemma forwarded_app (l1 l2 : list Action) :
  forwarded (l1 ++ l2) = forwarded l1 ++ forwarded l2.
Proof.
  induction l1 as [|a l1 IH]; [reflexivity|].
  destruct a; simpl; rewrite IH; reflexivity.
Qed.

Lemma consume_forwarded (events : list Hub.HubEvent) :
  forall castCount, forwarded (consume events castCount) = casts_of events.
Proof.
  induction events as [|event rest IH]; intro n; [reflexivity|].
  cbn [consume casts_of flat_map]. unfold cast_fid.
  destruct (Hub.data_of event) as [d|]; [|apply IH].
  destruct (Hub.type d =? 1); [|apply IH].
  cbn [forwarded app]. rewrite forwarded_app.
  destruct (Nat.eqb (S n mod 100) 0); cbn [forwarded app]; f_equal; apply IH.
Qed.

(** X1. The consume loop hands to the batcher exactly the fids of the
    events whose inner message type is 1, once each and in stream order,
    whatever the running count; events with another type or with a missing
    body, message or data are skipped. *)
Theorem X1_consume_forwards_casts (events : list Hub.HubEvent) (castCount : nat) :
  forwarded (consume events castCount) = casts_of events.
Proof.
  apply consume_forwarded.
Qed.

Lemma progress_app (l1 l2 : list Action) :
  progress (l1 ++ l2) = progress l1 ++ progress l2.
Proof.
  induction l1 as [|a l1 IH]; [reflexivity|].
  destruct a as [m| | | | | | | | | |]; simpl; try (rewrite IH; reflexivity).
  destruct m; simpl; rewrite IH; reflexivity.
Qed.

(** X2. The consume loop reports progress exactly at every 100th cast:
    starting from a count of n, over a stream with k cast events, the
    "Processed" lines carry the multiples of 100 among n+1 .. n+k, in
    order. *)
Theorem X2_consume_reports_every_100th (events : list Hub.HubEvent) (castCount : nat) :
  progress (consume events castCount)
  = filter (fun c => Nat.eqb (c mod 100) 0)
           (seq (S castCount) (length (casts_of events))).
Proof.
  revert castCount. induction events as [|event rest IH]; intro n; [reflexivity|].
  cbn [consume casts_of flat_map]. unfold cast_fid.
  destruct (Hub.data_of event) as [d|]; [|apply IH].
  destruct (Hub.type d =? 1); [|apply IH].
  rewrite length_app. cbn [length Nat.add seq filter progress].
  rewrite progress_app.
  destruct (Nat.eqb (S n mod 100) 0); cbn [progress app]; rewrite IH; reflexivity.
Qed.

(** ** The reconnect loop *)

Lemma filter_add_or_log (p : Action -> bool) (acts : list Action) :
  (forall a, add_or_log a = true -> p a = false) ->
  forallb add_or_log acts = true -> filter p acts = [].
Proof.
  intros H. induction acts as [|a acts IH]; intro F; [reflexivity|].
  simpl in F. apply andb_prop in F. destruct F as [F1 F2].
  simpl. rewrite (H a F1). apply IH, F2.
Qed.

Lemma ready_callback_forwards (a : Attempt) :
  forwarded (fst (ready_callback a)) = pass_casts a.
Proof.
  unfold ready_callback, pass_casts.
  destruct (ready a); [|reflexivity].
  destruct (subscribed a) as [events fin | | e]; try reflexivity.
  destruct fin; cbn [fst]; rewrite ?forwarded_app; cbn [forwarded app];
    rewrite ?forwarded_app, consume_forwarded; cbn [forwarded];
    rewrite ?app_nil_r; reflexivity.
Qed.

Lemma connect_loop_cons (a : Attempt) (rest : list Attempt) :
  connect_loop (a :: rest)
  = [ACreateClient; AWaitForReady READY_DEADLINE] ++ fst (ready_callback a)
    ++ match snd (ready_callback a) with
       | Rejects e =>
           [AError (MsgConnectionError e); ALog MsgReconnecting;
            ASleep RECONNECT_DELAY] ++ connect_loop rest
       | NeverSettles => []
       end.
Proof.
  cbn [connect_loop]. destruct (ready_callback a) as [acts fin]. reflexivity.
Qed.

(** X3. Over any script, what reaches the batcher is, pass after pass, the
    cast fids each subscription yielded before it failed or stopped: once
    each, in order, nothing re-sent after a reconnect, and nothing from
    passes the loop never gets to. *)
Theorem X3_every_cast_forwarded_once (script : list Attempt) :
  forwarded (connect_loop script) = flat_map pass_casts (played script).
Proof.
  induction script as [|a rest IH]; [reflexivity|].
  rewrite connect_loop_cons. cbn [played].
  cbn [app forwarded]. rewrite forwarded_app, ready_callback_forwards.
  destruct (snd (ready_callback a)) as [e|].
  - cbn [app forwarded flat_map]. rewrite IH. reflexivity.
  - cbn [forwarded flat_map]. reflexivity.
Qed.

(** X4. When the subscription's stream ends without an error, the client
    is closed and that is all: the awaited promise is never settled, so no
    error is logged, no delay is slept and no further pass is started,
    whatever the rest of the script. *)
Theorem X4_closed_stream_stalls_the_loop
  (events : list Hub.HubEvent) (rest : list Attempt) :
  connect_loop (mkAttempt Ready (SubscribeOk events StreamCloses) :: rest)
  = [ACreateClient; AWaitForReady 10000; ALog MsgConnected; ASubscribe;
     ALog MsgListening] ++ consume events 0 ++ [AClose].
Proof.
  rewrite connect_loop_cons. cbn [ready_callback ready subscribed fst snd].
  rewrite app_nil_r, <- !app_assoc. reflexivity.
Qed.

Lemma ready_callback_closes (a : Attempt) :
  filter is_close (fst (ready_callback a)) = if closes a then [AClose] else [].
Proof.
  unfold ready_callback, closes.
  destruct (ready a); [|reflexivity].
  destruct (subscribed a) as [events fin | | e]; try reflexivity.
  assert (C : filter is_close (consume events 0) = []).
  { apply filter_add_or_log; [|apply consume_add_or_log].
    intros [] H; try discriminate; reflexivity. }
  destruct fin; cbn [fst]; rewrite ?filter_app; cbn [filter is_close app];
    rewrite ?filter_app, C; reflexivity.
Qed.

(** X5. One client is created per pass the loop gets to, and
    [client.close()] runs once on exactly those passes where the hub became
    ready and the callback reached its [finally]: not after a failed
    [waitForReady], and not while the stream is still open. *)
Theorem X5_clients_created_and_closed (script : list Attempt) :
  length (filter is_create (connect_loop script)) = length (played script) /\
  length (filter is_close (connect_loop script))
  = length (filter closes (played script)).
Proof.
  induction script as [|a rest [IH1 IH2]]; [split; reflexivity|].
  rewrite connect_loop_cons. cbn [played].
  cbn [app filter is_create is_close].
  rewrite !filter_app, ready_callback_creates_nothing, ready_callback_closes.
  destruct (snd (ready_callback a)) as [e|]; cbn [app filter is_create is_close length].
  - rewrite IH1. split; [reflexivity|].
    rewrite length_app, IH2. destruct (closes a); reflexivity.
  - split; [reflexivity|]. rewrite app_nil_r. destruct (closes a); reflexivity.
Qed.

(* ================================================================= *)
(** ** What the batcher sends *)

Lemma step_batchSize (l : Label) (w w' : World) :
  step l w = Some w' -> batchSize w' = batchSize w.
Proof.
  intro S.
  destruct l as [cast | | h | r res | | dt].
  - unfold step in S. destruct (exited w); [discriminate|]. injection S as <-.
    destruct (Z_lt_le_dec (Z.of_nat (length (batch w)) + 1) (batchSize w)) as [Lt | Ge].
    + apply (add_below cast w Lt).
    + apply (add_at_threshold_fields cast w Ge).
  - unfold step in S. destruct (exited w); [discriminate|]. injection S as <-.
    destruct (batch w) eqn:B; [rewrite flush_empty by exact B; reflexivity|].
    apply flush_fields. congruence.
  - unfold step in S. destruct (exited w); [discriminate|]. unfold fire in S.
    destruct (find (is_handle h) (timers w)) as [[h' due]|]; [|discriminate].
    destruct (due <=? now w); [|discriminate].
    injection S as <-. set (w0 := set_timers _ w).
    destruct (batch w0) eqn:B; [rewrite flush_empty by exact B; reflexivity|].
    assert (N : batch w0 <> []) by congruence.
    destruct (flush_fields w0 N) as (_ & _ & _ & _ & _ & _ & _ & _ & _ & Bs & _).
    exact Bs.
  - unfold step in S. destruct (exited w); [discriminate|]. unfold settle in S.
    destruct (find (is_req r) (inflight w)) as [q|]; [|discriminate].
    set (w0 := set_inflight _ w) in S.
    pose proof (flush_resume_frame res (payload q) w0) as F.
    destruct (flush_resume res (payload q) w0) as [w1 done].
    simpl in F. destruct F as (_ & _ & _ & _ & _ & _ & _ & _ & Bs & _ & _ & _ & D).
    subst done.
    destruct (existsb (Nat.eqb r) (waiters w1)); injection S as <-; exact Bs.
  - unfold step in S. destruct (exited w); [discriminate|]. injection S as <-.
    unfold on_sigint. set (w0 := console_log LogShuttingDown w).
    assert (F : batchSize (fst (flush w0)) = batchSize w).
    { destruct (batch w0) eqn:B; [rewrite flush_empty by exact B; reflexivity|].
      assert (N : batch w0 <> []) by congruence.
      destruct (flush_fields w0 N) as (_ & _ & _ & _ & _ & _ & _ & _ & _ & Bs & _).
      exact Bs. }
    destruct (flush w0) as [w1 [|r]]; exact F.
  - unfold step in S. destruct (exited w); [discriminate|].
    destruct (0 <=? dt); [|discriminate]. injection S as <-. reflexivity.
Qed.

(** How one turn changes the pending batch: it is emptied, left alone,
    extended by the added event (below the threshold), or gets the head of
    a failed payload in front. *)
Lemma step_batch_cases (l : Label) (w w' : World) :
  step l w = Some w' ->
  batch w' = [] \/
  batch w' = batch w \/
  (exists cast, l = LAdd cast /\ batch w' = batch w ++ [cast] /\
                Z.of_nat (length (batch w)) + 1 < batchSize w) \/
  (exists r res q, l = LSettle r res /\ In q (inflight w) /\
                   delivery_failed res = true /\
                   batch w' = firstn RETRY_KEEP (payload q) ++ batch w).
Proof.
  intro S.
  destruct l as [cast | | h | r res | | dt].
  - unfold step in S. destruct (exited w); [discriminate|]. injection S as <-.
    destruct (Z_lt_le_dec (Z.of_nat (length (batch w)) + 1) (batchSize w)) as [Lt | Ge].
    + right. right. left. exists cast. repeat split; [|exact Lt].
      apply (add_below cast w Lt).
    + left. apply (add_at_threshold_fields cast w Ge).
  - unfold step in S. destruct (exited w); [discriminate|]. injection S as <-.
    left. apply flush_effect.
  - unfold step in S. destruct (exited w); [discriminate|]. unfold fire in S.
    destruct (find (is_handle h) (timers w)) as [[h' due]|]; [|discriminate].
    destruct (due <=? now w); [|discriminate].
    injection S as <-. left. apply flush_effect.
  - destruct (settle_keeps_pending r res w w' S) as [_ B].
    destruct (settle_frame r res w w' S) as (_ & _ & _ & _ & q & F).
    rewrite F in B. destruct (delivery_failed res) eqn:D.
    + right. right. right. exists r, res, q. repeat split; try assumption.
      apply find_is_req in F. apply F.
    + right. left. exact B.
  - unfold step in S. destruct (exited w); [discriminate|]. injection S as <-.
    left. unfold on_sigint.
    pose proof (flush_effect (console_log LogShuttingDown w)) as (B & _).
    destruct (flush (console_log LogShuttingDown w)) as [w1 [|r]]; exact B.
  - unfold step in S. destruct (exited w); [discriminate|].
    destruct (0 <=? dt); [|discriminate]. injection S as <-.
    right. left. reflexivity.
Qed.

Lemma flush_payloads (R : list CastEvent -> Prop) (w : World) :
  payloads_sat R w -> (batch w <> [] -> R (batch w)) ->
  payloads_sat R (fst (flush w)).
Proof.
  intros [Pc Pq] Rb. destruct (batch w) eqn:B.
  - rewrite flush_empty by exact B. split; assumption.
  - assert (N : batch w <> []) by congruence.
    destruct (flush_fields w N) as (_ & _ & C & I & _).
    rewrite B in C, I. split.
    + intros c' H. rewrite C in H. apply in_app_or in H.
      destruct H as [H | [<- | []]]; [apply Pc, H | apply Rb; discriminate].
    + intros q H. rewrite I in H. apply in_app_or in H.
      destruct H as [H | [<- | []]]; [apply Pq, H | apply Rb; discriminate].
Qed.

(** A turn keeps every sent batch in [R] provided the batch it may send
    itself, the pending one or the pending one with the added event, is. *)
Lemma step_payloads (R : list CastEvent -> Prop) (l : Label) (w w' : World) :
  step l w = Some w' ->
  payloads_sat R w ->
  (batch w <> [] -> R (batch w)) ->
  (forall cast, l = LAdd cast -> R (batch w ++ [cast])) ->
  payloads_sat R w'.
Proof.
  intros S P Rb Ra.
  destruct l as [cast | | h | r res | | dt].
  - unfold step in S. destruct (exited w); [discriminate|]. injection S as <-.
    destruct (Z_lt_le_dec (Z.of_nat (length (batch w)) + 1) (batchSize w)) as [Lt | Ge].
    + destruct (add_below cast w Lt) as (_ & C & I & _).
      unfold payloads_sat. rewrite C, I. exact P.
    + rewrite (add_at_threshold cast w Ge). apply flush_payloads; [exact P|].
      intros _. apply (Ra cast eq_refl).
  - unfold step in S. destruct (exited w); [discriminate|]. injection S as <-.
    apply flush_payloads; assumption.
  - unfold step in S. destruct (exited w); [discriminate|]. unfold fire in S.
    destruct (find (is_handle h) (timers w)) as [[h' due]|]; [|discriminate].
    destruct (due <=? now w); [|discriminate].
    injection S as <-. apply flush_payloads; assumption.
  - destruct (settle_keeps_pending r res w w' S) as [C _].
    destruct (settle_frame r res w w' S) as (_ & _ & _ & I & _).
    destruct P as [Pc Pq]. split.
    + rewrite C. exact Pc.
    + intros q H. rewrite I in H. apply filter_In in H. apply Pq, H.
  - unfold step in S. destruct (exited w); [discriminate|]. injection S as <-.
    unfold on_sigint.
    pose proof (flush_payloads R (console_log LogShuttingDown w) P Rb) as F.
    destruct (flush (console_log LogShuttingDown w)) as [w1 [|r]]; exact F.
  - unfold step in S. destruct (exited w); [discriminate|].
    destruct (0 <=? dt); [|discriminate]. injection S as <-. exact P.
Qed.

Lemma step_carried_ok (n : nat) (acc : list CastEvent) (l : Label) (w w' : World) :
  (forall r res, l = LSettle r res -> delivery_failed res = false) ->
  step l w = Some w' ->
  carried n acc w ->
  carried n (acc ++ adds_of [l]) w'.
Proof.
  intros Ok S K.
  destruct (is_settle l) eqn:E.
  - destruct l as [cast | | h | r res | | dt]; try discriminate.
    destruct (settle_keeps_pending r res w w' S) as [C B].
    rewrite (Ok r res eq_refl) in B. simpl in B.
    cbn [adds_of]. rewrite app_nil_r.
    destruct K as [L A]. unfold carried, sent_after in *.
    rewrite C, B. split; assumption.
  - apply (step_carried n acc l w w' E S K).
Qed.

Lemma run_carried_ok (ls : list Label) :
  forall acc w w',
    all_succeed ls = true ->
    run ls w = Some w' ->
    carried 0 acc w ->
    carried 0 (acc ++ adds_of ls) w'.
Proof.
  induction ls as [|l ls IH]; intros acc w w' A R K.
  - simpl in R. injection R as <-. simpl. rewrite app_nil_r. exact K.
  - simpl in A. apply andb_prop in A. destruct A as [A1 A2].
    simpl in R. destruct (step l w) as [w1|] eqn:S; [|discriminate].
    replace (acc ++ adds_of (l :: ls)) with ((acc ++ adds_of [l]) ++ adds_of ls)
      by (rewrite <- app_assoc; f_equal; destruct l; reflexivity).
    apply (IH _ w1 w' A2 R).
    apply (step_carried_ok 0 acc l w w1); [|exact S|exact K].
    intros r res ->. apply negb_true_iff in A1. exact A1.
Qed.

(** X6. As long as no delivery fails, nothing is lost, duplicated or
    reordered: from a fresh batcher, after any schedule of adds, flushes,
    timer firings, successful settlements, ticks and SIGINT, the payloads
    of all delivery calls, in call order, followed by the pending batch are
    exactly the events added, in the order they were added. *)
Theorem X6_exactly_once_without_failure
  (bs to t0 : Z) (ls : list Label) (w : World) :
  run ls (new_SimpleBatcher bs to t0) = Some w ->
  all_succeed ls = true ->
  concat (map call_payload (calls w)) ++ batch w = adds_of ls.
Proof.
  intros R A.
  assert (K : carried 0 [] (new_SimpleBatcher bs to t0)).
  { split; [simpl; lia | reflexivity]. }
  destruct (run_carried_ok ls [] _ w A R K) as [_ E]. exact E.
Qed.

Lemma X6_witness :
  let ls := [LAdd (mkCast 1 0); LAdd (mkCast 2 5); LSettle 0%nat (FetchResponds 204);
             LAdd (mkCast 3 9)] in
  exists w,
    run ls (new_SimpleBatcher 2 5000 0) = Some w /\
    concat (map call_payload (calls w)) ++ batch w
    = [mkCast 1 0; mkCast 2 5; mkCast 3 9].
Proof.
  intro ls.
  destruct (run ls (new_SimpleBatcher 2 5000 0)) as [w|] eqn:R;
    [|vm_compute in R; discriminate].
  exists w. split; [reflexivity|].
  apply (X6_exactly_once_without_failure 2 5000 0 ls w R eq_refl).
Defined.

Lemma payloads_sat_weaken (R R' : list CastEvent -> Prop) (w : World) :
  (forall b, R b -> R' b) -> payloads_sat R w -> payloads_sat R' w.
Proof.
  intros H [Pc Pq]. split; intros x I; apply H; [apply Pc | apply Pq]; exact I.
Qed.

Lemma In_firstn (A : Type) (n : nat) (l : list A) (x : A) :
  In x (firstn n l) -> In x l.
Proof.
  intro H. rewrite <- (firstn_skipn n l). apply in_or_app. left. exact H.
Qed.

Lemma step_sound (acc : list CastEvent) (l : Label) (w w' : World) :
  step l w = Some w' ->
  incl (batch w) acc /\ payloads_sat (fun b => incl b acc) w ->
  incl (batch w') (acc ++ adds_of [l]) /\
  payloads_sat (fun b => incl b (acc ++ adds_of [l])) w'.
Proof.
  intros S [Ib P].
  assert (P' : payloads_sat (fun b => incl b (acc ++ adds_of [l])) w).
  { apply (payloads_sat_weaken (fun b => incl b acc)); [|exact P].
    intros b H. apply incl_appl, H. }
  split.
  - destruct (step_batch_cases l w w' S)
      as [E | [E | [(cast & -> & E & _) | (r & res & q & -> & Iq & _ & E)]]];
      rewrite E.
    + intros x [].
    + apply incl_appl, Ib.
    + cbn [adds_of]. apply incl_app_app; [exact Ib | apply incl_refl].
    + apply incl_appl. apply incl_app; [|exact Ib].
      intros x H. apply In_firstn in H. destruct P as [_ Pq]. apply (Pq q Iq), H.
  - apply (step_payloads _ l w w' S P').
    + intros _. apply incl_appl, Ib.
    + intros cast ->. cbn [adds_of]. apply incl_app_app; [exact Ib | apply incl_refl].
Qed.

Lemma run_sound (ls : list Label) :
  forall acc w w',
    run ls w = Some w' ->
    incl (batch w) acc /\ payloads_sat (fun b => incl b acc) w ->
    incl (batch w') (acc ++ adds_of ls) /\
    payloads_sat (fun b => incl b (acc ++ adds_of ls)) w'.
Proof.
  induction ls as [|l ls IH]; intros acc w w' R I.
  - simpl in R. injection R as <-. simpl. rewrite app_nil_r. exact I.
  - simpl in R. destruct (step l w) as [w1|] eqn:S; [|discriminate].
    replace (acc ++ adds_of (l :: ls)) with ((acc ++ adds_of [l]) ++ adds_of ls)
      by (rewrite <- app_assoc; f_equal; destruct l; reflexivity).
    apply (IH _ w1 w' R). apply (step_sound acc l w w1 S I).
Qed.

(** X7. The batcher sends and holds only what it was given: after any
    schedule from a fresh batcher, failures and retries included, every
    event in a delivery call, in a request in flight or in the pending
    batch is one of the events added. *)
Theorem X7_only_added_events_are_sent
  (bs to t0 : Z) (ls : list Label) (w : World) (e : CastEvent) :
  run ls (new_SimpleBatcher bs to t0) = Some w ->
  In e (batch w) \/
  (exists c, In c (calls w) /\ In e (call_payload c)) \/
  (exists q, In q (inflight w) /\ In e (payload q)) ->
  In e (adds_of ls).
Proof.
  intros R H.
  destruct (run_sound ls [] _ w R) as [Ib [Pc Pq]].
  { split; [intros x [] | split; intros x []]. }
  destruct H as [H | [(c & Ic & H) | (q & Iq & H)]].
  - apply Ib, H.
  - apply (Pc c Ic), H.
  - apply (Pq q Iq), H.
Qed.

Lemma X7_witness :
  let ls := [LAdd (mkCast 1 0); LAdd (mkCast 2 5); LSettle 0%nat (FetchResponds 500);
             LFlush] in
  exists w,
    run ls (new_SimpleBatcher 2 5000 0) = Some w /\
    In (mkCast 2 5) (adds_of ls).
Proof.
  intro ls.
  destruct (run ls (new_SimpleBatcher 2 5000 0)) as [w|] eqn:R;
    [|vm_compute in R; discriminate].
  exists w. split; [reflexivity|].
  apply (X7_only_added_events_are_sent 2 5000 0 ls w (mkCast 2 5) R).
  right. left. exists (mkCall 0 [mkCast 1 0; mkCast 2 5]). split.
  - vm_compute in R. injection R as <-. right. left. reflexivity.
  - right. left. reflexivity.
Defined.

Lemma run_payloads_nonempty (ls : list Label) :
  forall w w',
    run ls w = Some w' ->
    payloads_sat (fun b => b <> []) w -> payloads_sat (fun b => b <> []) w'.
Proof.
  induction ls as [|l ls IH]; intros w w' R P.
  - simpl in R. injection R as <-. exact P.
  - simpl in R. destruct (step l w) as [w1|] eqn:S; [|discriminate].
    apply (IH w1 w' R). apply (step_payloads _ l w w1 S P).
    + intro N. exact N.
    + intros cast _. destruct (batch w); discriminate.
Qed.

(** X8. The sink is never sent an empty batch: in every reachable state,
    every delivery call made so far, and every request still in flight,
    carries at least one event. *)
Theorem X8_no_empty_delivery (w : World) :
  reachable w ->
  (forall c, In c (calls w) -> call_payload c <> []) /\
  (forall q, In q (inflight w) -> payload q <> []).
Proof.
  intros (bs & to & t0 & ls & R).
  apply (run_payloads_nonempty ls _ w R). split; intros x [].
Qed.

Lemma X8_witness :
  let w := fst (flush (add (mkCast 7 1000) (default_batcher 1000))) in
  reachable w /\ forall c, In c (calls w) -> call_payload c <> [].
Proof.
  intro w.
  assert (R : reachable w).
  { exists BATCH_SIZE, BATCH_TIMEOUT, 1000, [LAdd (mkCast 7 1000); LFlush].
    vm_compute. reflexivity. }
  split; [exact R | apply (X8_no_empty_delivery w R)].
Defined.

Lemma step_bounded (bs : Z) (l : Label) (w w' : World) :
  (forall r res, l = LSettle r res -> delivery_failed res = false) ->
  step l w = Some w' ->
  batchSize w = bs /\ Z.of_nat (length (batch w)) < bs /\
  payloads_sat (fun b => Z.of_nat (length b) <= bs) w ->
  batchSize w' = bs /\ Z.of_nat (length (batch w')) < bs /\
  payloads_sat (fun b => Z.of_nat (length b) <= bs) w'.
Proof.
  intros Ok S (Bs & Lb & P).
  split; [rewrite (step_batchSize l w w' S); exact Bs|]. split.
  - destruct (step_batch_cases l w w' S)
      as [E | [E | [(cast & _ & E & Lt) | (r & res & q & El & _ & D & _)]]].
    + rewrite E. simpl. lia.
    + rewrite E. exact Lb.
    + rewrite E, length_app. simpl. lia.
    + rewrite (Ok r res El) in D. discriminate.
  - apply (step_payloads _ l w w' S P).
    + intros _. lia.
    + intros cast _. rewrite length_app. simpl. lia.
Qed.

Lemma run_bounded (bs : Z) (ls : list Label) :
  forall w w',
    all_succeed ls = true ->
    run ls w = Some w' ->
    batchSize w = bs /\ Z.of_nat (length (batch w)) < bs /\
    payloads_sat (fun b => Z.of_nat (length b) <= bs) w ->
    batchSize w' = bs /\ Z.of_nat (length (batch w')) < bs /\
    payloads_sat (fun b => Z.of_nat (length b) <= bs) w'.
Proof.
  induction ls as [|l ls IH]; intros w w' A R I.
  - simpl in R. injection R as <-. exact I.
  - simpl in A. apply andb_prop in A. destruct A as [A1 A2].
    simpl in R. destruct (step l w) as [w1|] eqn:S; [|discriminate].
    apply (IH w1 w' A2 R). apply (step_bounded bs l w w1); [|exact S|exact I].
    intros r res ->. apply negb_true_iff in A1. exact A1.
Qed.

(** X9. With a size threshold of at least 1 and no failing delivery, the
    pending batch always stays strictly below the threshold and no
    delivery call ever carries more than [batchSize] events.  (After a
    failure the re-queued events come on top, so neither bound holds
    then.) *)
Theorem X9_batches_bounded_without_failure
  (bs to t0 : Z) (ls : list Label) (w : World) :
  1 <= bs ->
  run ls (new_SimpleBatcher bs to t0) = Some w ->
  all_succeed ls = true ->
  Z.of_nat (length (batch w)) < bs /\
  (forall c, In c (calls w) -> Z.of_nat (length (call_payload c)) <= bs).
Proof.
  intros P R A.
  destruct (run_bounded bs ls _ w A R) as (_ & L & [Pc _]).
  { split; [reflexivity|]. split; [simpl; lia|]. split; intros x []. }
  split; [exact L | exact Pc].
Qed.

Lemma X9_witness :
  let ls := [LAdd (mkCast 1 0); LAdd (mkCast 2 5); LAdd (mkCast 3 9);
             LSettle 0%nat (FetchResponds 200)] in
  exists w,
    run ls (new_SimpleBatcher 2 5000 0) = Some w /\
    Z.of_nat (length (batch w)) < 2 /\
    (forall c, In c (calls w) -> Z.of_nat (length (call_payload c)) <= 2).
Proof.
  intro ls.
  destruct (run ls (new_SimpleBatcher 2 5000 0)) as [w|] eqn:R;
    [|vm_compute in R; discriminate].
  exists w. split; [reflexivity|].
  apply (X9_batches_bounded_without_failure 2 5000 0 ls w); [lia | exact R | reflexivity].
Defined.

Lemma flush_unarmed (w : World) :
  timers w = [] -> timer w = None ->
  timers (fst (flush w)) = [] /\ timer (fst (flush w)) = None.
Proof.
  intros Ts Tm. split; [apply flush_timers_nil, Ts|].
  destruct (batch w) eqn:B; [rewrite flush_empty by exact B; exact Tm|].
  apply flush_fields. congruence.
Qed.

Lemma step_unarmed (l : Label) (w w' : World) :
  step l w = Some w' ->
  batchSize w <= 1 /\ timers w = [] /\ timer w = None ->
  batchSize w' <= 1 /\ timers w' = [] /\ timer w' = None.
Proof.
  intros S (Bs & Ts & Tm).
  split; [rewrite (step_batchSize l w w' S); exact Bs|].
  destruct l as [cast | | h | r res | | dt].
  - unfold step in S. destruct (exited w); [discriminate|]. injection S as <-.
    assert (Ge : batchSize w <= Z.of_nat (length (batch w)) + 1) by lia.
    destruct (add_at_threshold_fields cast w Ge)
      as (_ & T & _ & _ & _ & _ & _ & _ & _ & E).
    split; [|exact T]. rewrite E, swapped_timers, Tm. exact Ts.
  - unfold step in S. destruct (exited w); [discriminate|]. injection S as <-.
    apply flush_unarmed; assumption.
  - unfold step in S. destruct (exited w); [discriminate|]. unfold fire in S.
    rewrite Ts in S. discriminate.
  - destruct (settle_frame r res w w' S) as (E1 & E2 & _).
    rewrite E1, E2. split; assumption.
  - unfold step in S. destruct (exited w); [discriminate|]. injection S as <-.
    unfold on_sigint.
    pose proof (flush_unarmed (console_log LogShuttingDown w) Ts Tm) as F.
    destruct (flush (console_log LogShuttingDown w)) as [w1 [|r]]; exact F.
  - unfold step in S. destruct (exited w); [discriminate|].
    destruct (0 <=? dt); [|discriminate]. injection S as <-. split; assumption.
Qed.

Lemma run_unarmed (ls : list Label) :
  forall w w',
    run ls w = Some w' ->
    batchSize w <= 1 /\ timers w = [] /\ timer w = None ->
    batchSize w' <= 1 /\ timers w' = [] /\ timer w' = None.
Proof.
  induction ls as [|l ls IH]; intros w w' R I.
  - simpl in R. injection R as <-. exact I.
  - simpl in R. destruct (step l w) as [w1|] eqn:S; [|discriminate].
    apply (IH w1 w' R). apply (step_unarmed l w w1 S I).
Qed.

(** X10. A batcher built with a size threshold of 1 or less never arms
    its idle timer: every add reaches the threshold and sends at once,
    together with whatever a failed delivery put back, so no timeout is
    ever live and the timeout parameter plays no role. *)
Theorem X10_threshold_one_never_arms_timer
  (bs to t0 : Z) (ls : list Label) (w : World) (cast : CastEvent) :
  bs <= 1 ->
  run ls (new_SimpleBatcher bs to t0) = Some w ->
  timers w = [] /\ timer w = None /\
  calls (add cast w) = calls w ++ [mkCall (now w) (batch w ++ [cast])] /\
  batch (add cast w) = [].
Proof.
  intros L R.
  destruct (run_unarmed ls _ w R) as (Bs & Ts & Tm).
  { repeat split. exact L. }
  split; [exact Ts|]. split; [exact Tm|].
  assert (Ge : batchSize w <= Z.of_nat (length (batch w)) + 1) by lia.
  destruct (add_at_threshold_fields cast w Ge) as (B & _ & C & _).
  split; assumption.
Qed.

Lemma X10_witness :
  let ls := [LAdd (mkCast 1 0); LSettle 0%nat (FetchRejects "down"); LTick 9000] in
  exists w,
    run ls (new_SimpleBatcher 1 5000 0) = Some w /\
    timers w = [] /\
    calls (add (mkCast 2 9000) w)
    = calls w ++ [mkCall 9000 [mkCast 1 0; mkCast 2 9000]].
Proof.
  intro ls.
  destruct (run ls (new_SimpleBatcher 1 5000 0)) as [w|] eqn:R;
    [|vm_compute in R; discriminate].
  exists w. split; [reflexivity|].
  destruct (X10_threshold_one_never_arms_timer 1 5000 0 ls w (mkCast 2 9000))
    as (Ts & _ & C & _); [lia | exact R |].
  split; [exact Ts|]. rewrite C.
  vm_compute in R. injection R as <-. reflexivity.
Defined.

(** ** Delivered batches and shutdown *)

(** X11. When the sink answers a delivery with a 2xx status, the flush
    only logs the number of events sent: nothing is put back into the
    pending batch, no call is made, the timer is left alone, and the
    request is no longer in flight. *)
Theorem X11_delivered_batch_is_only_logged
  (r : ReqId) (q : Request) (status : Z) (w : World) :
  exited w = None ->
  find (is_req r) (inflight w) = Some q ->
  200 <= status <= 299 ->
  exists w',
    step (LSettle r (FetchResponds status)) w = Some w' /\
    batch w' = batch w /\
    console w' = console w ++ [LogSent (length (payload q))] /\
    calls w' = calls w /\ timers w' = timers w /\ timer w' = timer w /\
    (forall q', In q' (inflight w') -> rid q' <> r).
Proof.
  intros X F [Lo Hi].
  assert (Ok : response_ok status = true).
  { unfold response_ok. apply andb_true_intro. split; apply Z.leb_le; assumption. }
  assert (S : exists w', step (LSettle r (FetchResponds status)) w = Some w').
  { unfold step. rewrite X. unfold settle. rewrite F.
    unfold flush_resume, flush_try. rewrite Ok. cbn [negb].
    destruct (existsb _ _); eexists; reflexivity. }
  destruct S as [w' S]. exists w'. split; [exact S|].
  destruct (settle_keeps_pending _ _ w w' S) as [C B].
  destruct (settle_frame _ _ w w' S) as (Ts & Tm & _ & I & _).
  cbn [delivery_failed] in B. rewrite Ok in B. cbn [negb app] in B.
  split; [exact B|]. split.
  - unfold step in S. rewrite X in S. unfold settle in S. rewrite F in S.
    unfold flush_resume, flush_try in S. rewrite Ok in S. cbn [negb] in S.
    destruct (existsb _ _) in S; injection S as <-; reflexivity.
  - repeat split; try assumption.
    intros q' H E. rewrite I in H. apply filter_In in H. destruct H as [_ H].
    unfold is_req in H. rewrite E, Nat.eqb_refl in H. discriminate.
Qed.

Lemma X11_witness :
  let w := adds [mkCast 1 0; mkCast 2 0] (new_SimpleBatcher 2 5000 0) in
  exists w',
    step (LSettle 0%nat (FetchResponds 201)) w = Some w' /\
    batch w' = [] /\ console w' = [LogSent 2].
Proof.
  intro w.
  destruct (X11_delivered_batch_is_only_logged 0%nat
              (mkReq 0%nat [mkCast 1 0; mkCast 2 0]) 201 w)
    as (w' & S & B & Co & _); try reflexivity; [lia|].
  exists w'. split; [exact S|]. split; [exact B | exact Co].
Defined.

(** X12. A SIGINT that finds nothing pending exits with status 0 at once
    and makes no delivery call; requests still in flight at that moment are
    abandoned: no turn runs after the exit, so their outcome is never
    handled and a failed one is not put back. *)
Theorem X12_sigint_with_nothing_pending (w : World) :
  exited w = None ->
  batch w = [] ->
  exists w',
    step LSigint w = Some w' /\
    exited w' = Some 0 /\ calls w' = calls w /\ inflight w' = inflight w /\
    (forall l, step l w' = None).
Proof.
  apply sigint_idle.
Qed.

Lemma X12_witness :
  exists w',
    step LSigint (default_batcher 0) = Some w' /\
    exited w' = Some 0 /\ calls w' = [].
Proof.
  destruct (X12_sigint_with_nothing_pending (default_batcher 0) eq_refl eq_refl)
    as (w' & S & E & C & _).
  exists w'. split; [exact S|]. split; [exact E | exact C].
Defined.



(* ================================================================= *)
(** * Properties of the collection endpoint, [index.ts] *)

(** ** Recording a cast *)

Lemma conflicts_key (f b : Z) (r : CastCounts.Row) :
  conflicts f b r = true <-> key_of r = (f, b).
Proof.
  unfold conflicts, key_of. rewrite andb_true_iff, !Z.eqb_eq. split.
  - intros [-> ->]. reflexivity.
  - intro E. injection E as -> ->. split; reflexivity.
Qed.

Lemma conflicts_false_key (f b : Z) (r : CastCounts.Row) :
  conflicts f b r = false <-> key_of r <> (f, b).
Proof.
  rewrite <- conflicts_key. destruct (conflicts f b r); split; congruence.
Qed.

Lemma lookup_upsert_same (f t b t' : Z) (db : Table) :
  t' = t -> lookup f b (upsert f t b t' db) = Some t.
Proof.
  intros ->. unfold lookup. induction db as [|r rest IH]; cbn [upsert find].
  - assert (C : conflicts f b (CastCounts.mkRow f t b) = true)
      by (apply conflicts_key; reflexivity).
    rewrite C. reflexivity.
  - destruct (conflicts f b r) eqn:C; cbn [find].
    + assert (C' : conflicts f b (CastCounts.mkRow (CastCounts.fid r) t
                                   (CastCounts.hour_bucket r)) = true) by exact C.
      rewrite C'. reflexivity.
    + rewrite C. exact IH.
Qed.

Lemma lookup_upsert_other (f t b t' f' b' : Z) (db : Table) :
  (f', b') <> (f, b) -> lookup f' b' (upsert f t b t' db) = lookup f' b' db.
Proof.
  intro N. unfold lookup. induction db as [|r rest IH]; cbn [upsert find].
  - assert (C : conflicts f' b' (CastCounts.mkRow f t b) = false).
    { apply conflicts_false_key. unfold key_of. simpl. congruence. }
    rewrite C. reflexivity.
  - destruct (conflicts f b r) eqn:C; cbn [find].
    + apply conflicts_key in C.
      assert (C1 : conflicts f' b' r = false).
      { apply conflicts_false_key. congruence. }
      assert (C2 : conflicts f' b' (CastCounts.mkRow (CastCounts.fid r) t'
                                      (CastCounts.hour_bucket r)) = false) by exact C1.
      rewrite C1, C2. reflexivity.
    + destruct (conflicts f' b' r); [reflexivity | exact IH].
Qed.

Lemma keys_upsert (f t b t' : Z) (db : Table) :
  map key_of (upsert f t b t' db)
  = if existsb (conflicts f b) db then map key_of db else map key_of db ++ [(f, b)].
Proof.
  induction db as [|r rest IH]; cbn [upsert existsb map app]; [reflexivity|].
  destruct (conflicts f b r); cbn [orb map]; [reflexivity|].
  rewrite IH. destruct (existsb (conflicts f b) rest); reflexivity.
Qed.

Lemma existsb_conflicts_key (f b : Z) (db : Table) :
  existsb (conflicts f b) db = true <-> In (f, b) (map key_of db).
Proof.
  rewrite existsb_exists, in_map_iff. split.
  - intros (r & I & C). exists r. split; [apply conflicts_key, C | exact I].
  - intros (r & E & I). exists r. split; [exact I | apply conflicts_key, E].
Qed.

Lemma upsert_NoDup (f t b t' : Z) (db : Table) :
  NoDup (map key_of db) -> NoDup (map key_of (upsert f t b t' db)).
Proof.
  intro N. rewrite keys_upsert.
  destruct (existsb (conflicts f b) db) eqn:E; [exact N|].
  apply NoDup_app; [exact N | repeat constructor; intros [] | ].
  intros k I [<- | []].
  apply existsb_conflicts_key in I. congruence.
Qed.

Lemma upsert_buckets (f t b : Z) (db : Table) :
  b = t / HOUR_MS ->
  Forall (fun r => CastCounts.hour_bucket r = CastCounts.cast_time r / HOUR_MS) db ->
  Forall (fun r => CastCounts.hour_bucket r = CastCounts.cast_time r / HOUR_MS)
         (upsert f t b t db).
Proof.
  intros E F. induction F as [|r rest Hr F IH]; cbn [upsert].
  - constructor; [exact E | constructor].
  - destruct (conflicts f b r) eqn:C.
    + constructor; [|exact F]. simpl.
      apply conflicts_key in C. injection C as _ C. rewrite C. exact E.
    + constructor; assumption.
Qed.

Lemma recordCast_well_formed (db : Table) (fid : Z) (timestamp : option Z) (clock : Z) :
  well_formed db -> well_formed (recordCast db fid timestamp clock).
Proof.
  intros [N F]. unfold recordCast. split.
  - apply upsert_NoDup, N.
  - apply upsert_buckets; [reflexivity | exact F].
Qed.

Lemma NoDup_map_filter (A B : Type) (g : A -> B) (p : A -> bool) (l : list A) :
  NoDup (map g l) -> NoDup (map g (filter p l)).
Proof.
  induction l as [|x l IH]; intro N; [constructor|].
  simpl in N. inversion N as [|? ? Nx Nl]; subst.
  simpl. destruct (p x); [|apply IH, Nl].
  simpl. constructor; [|apply IH, Nl].
  intro I. apply Nx. apply in_map_iff in I. destruct I as (y & E & I).
  apply in_map_iff. exists y. split; [exact E|]. apply filter_In in I. apply I.
Qed.

Lemma cleanOldCasts_well_formed (db : Table) (clock : Z) :
  well_formed db -> well_formed (cleanOldCasts db clock).
Proof.
  intros [N F]. unfold cleanOldCasts. split.
  - apply NoDup_map_filter, N.
  - apply Forall_forall. intros r I. apply filter_In in I.
    rewrite Forall_forall in F. apply F, I.
Qed.

Lemma record_items_well_formed (items : list Item) :
  forall i clock db,
    well_formed db -> well_formed (fst (record_items items i clock db)).
Proof.
  induction items as [|[|f ts] rest IH]; intros i clock db W; cbn [record_items fst].
  - exact W.
  - exact W.
  - apply IH, recordCast_well_formed, W.
Qed.

(** X14. Every write path of the Worker keeps the table well formed: from
    a well-formed table (the empty one is), [recordCast], [cleanOldCasts]
    and both POST handlers, whatever they are sent and however they end,
    leave at most one row per (fid, hour bucket), each row in the hour
    bucket of its cast time. *)
Theorem X14_writes_keep_table_well_formed
  (db : Table) (fid : Z) (timestamp : option Z) (now : Z)
  (request : Body) (draw : bool) (clock : nat -> Z) (fid' : option Z) :
  well_formed db ->
  well_formed (recordCast db fid timestamp now) /\
  well_formed (cleanOldCasts db now) /\
  well_formed (snd (batch_casts request draw clock db)) /\
  well_formed (snd (post_cast fid' timestamp clock db)).
Proof.
  intro W.
  split; [apply recordCast_well_formed, W|].
  split; [apply cleanOldCasts_well_formed, W|]. split.
  - unfold batch_casts. destruct request as [m | | items]; try exact W.
    pose proof (record_items_well_formed items 0 clock db W) as R.
    destruct (record_items items 0 clock db) as [db' [m|]]; cbn [fst snd] in *;
      [exact R|].
    destruct draw; [apply cleanOldCasts_well_formed, R | exact R].
  - unfold post_cast. destruct fid' as [f|]; [|exact W].
    destruct (f =? 0); [exact W | apply recordCast_well_formed, W].
Qed.

Lemma X14_witness :
  let db := recordCast [] 7 (Some 3600001) 0 in
  well_formed db /\
  well_formed (snd (batch_casts (CastsArray [ItemCast 7 (Some 3600002); ItemNull])
                                true (fun _ => 90000000) db)).
Proof.
  intro db.
  assert (W0 : well_formed []) by (split; constructor).
  assert (W : well_formed db) by (apply recordCast_well_formed, W0).
  split; [exact W|].
  apply (X14_writes_keep_table_well_formed db 0 None 0 _ true _ None W).
Defined.

(** X15. A recorded cast can be read back: after [recordCast] the row of
    (fid, hour bucket of the effective time) holds that time, where the
    effective time is the given timestamp unless it is absent or 0, in
    which case it is the clock; every other row is what it was. *)
Theorem X15_recorded_cast_reads_back
  (db : Table) (fid : Z) (timestamp : option Z) (clock : Z) (f' b' : Z) :
  let now := timestamp_or timestamp clock in
  lookup fid (now / HOUR_MS) (recordCast db fid timestamp clock) = Some now /\
  ((f', b') <> (fid, now / HOUR_MS) ->
   lookup f' b' (recordCast db fid timestamp clock) = lookup f' b' db).
Proof.
  intro now. unfold recordCast. fold now. split.
  - apply lookup_upsert_same. reflexivity.
  - apply lookup_upsert_other.
Qed.

Lemma upsert_twice (f t1 t2 b : Z) (db : Table) :
  upsert f t2 b t2 (upsert f t1 b t1 db) = upsert f t2 b t2 db.
Proof.
  induction db as [|r rest IH]; cbn [upsert].
  - assert (C : conflicts f b (CastCounts.mkRow f t1 b) = true)
      by (apply conflicts_key; reflexivity).
    rewrite C. reflexivity.
  - destruct (conflicts f b r) eqn:C; cbn [upsert].
    + assert (C' : conflicts f b (CastCounts.mkRow (CastCounts.fid r) t1
                                   (CastCounts.hour_bucket r)) = true) by exact C.
      rewrite C'. reflexivity.
    + rewrite C, IH. reflexivity.
Qed.

(** X16. Within one hour bucket only a user's latest recorded cast is
    kept: recording a cast of the same fid whose effective time falls in
    the same hour as the one recorded just before gives the table that
    recording the second one alone gives, so the row count does not grow
    with the number of casts. *)
Theorem X16_same_hour_casts_collapse
  (db : Table) (fid : Z) (ts1 ts2 : option Z) (clock1 clock2 : Z) :
  timestamp_or ts1 clock1 / HOUR_MS = timestamp_or ts2 clock2 / HOUR_MS ->
  recordCast (recordCast db fid ts1 clock1) fid ts2 clock2
  = recordCast db fid ts2 clock2.
Proof.
  intro E. unfold recordCast. rewrite E. apply upsert_twice.
Qed.

Lemma X16_witness :
  recordCast (recordCast [] 7 (Some 3600001) 0) 7 None 3700000
  = recordCast [] 7 None 3700000.
Proof.
  apply (X16_same_hour_casts_collapse [] 7 (Some 3600001) None 0 3700000).
  reflexivity.
Defined.

Lemma X15_witness :
  let db := recordCast [] 7 (Some 3600001) 0 in
  lookup 8 2 (recordCast db 8 (Some 0) 7200005) = Some 7200005 /\
  lookup 7 1 (recordCast db 8 (Some 0) 7200005) = Some 3600001.
Proof.
  intro db.
  destruct (X15_recorded_cast_reads_back db 8 (Some 0) 7200005 7 1) as [A B].
  split; [exact A|]. rewrite B; [reflexivity | discriminate].
Defined.

(** ** Reading the table *)

Lemma NoDup_in_range (lo : Z) (n : nat) (l : list Z) :
  NoDup l -> (forall x, In x l -> lo <= x < lo + Z.of_nat n) ->
  (length l <= n)%nat.
Proof.
  intros N R.
  assert (N' : NoDup (map (fun x => Z.to_nat (x - lo)) l)).
  { clear - N R. induction l as [|a l IH]; [constructor|].
    inversion N as [|? ? Na Nl]; subst. simpl. constructor.
    - intro I. apply in_map_iff in I. destruct I as (y & E & I).
      assert (Ry := R y (or_intror I)). assert (Ra := R a (or_introl eq_refl)).
      assert (y = a) by lia. subst y. contradiction.
    - apply IH; [exact Nl|]. intros x I. apply R. right. exact I. }
  assert (I : incl (map (fun x => Z.to_nat (x - lo)) l) (seq 0 n)).
  { intros k H. apply in_map_iff in H. destruct H as (x & <- & H).
    apply in_seq. specialize (R x H). lia. }
  pose proof (NoDup_incl_length N' I) as L.
  rewrite length_map, length_seq in L. exact L.
Qed.

(** X17. The cast count of a user is a count of hours, not of casts: in a
    well-formed table with no row in the future, the count that
    [/api/user/:fid/stats] reports for the last 24 hours is at most 25,
    however many casts were recorded. *)
Theorem X17_user_count_at_most_25 (db : Table) (fid : Z) (clock : Z) :
  well_formed db ->
  (forall r, In r db -> CastCounts.cast_time r <= clock) ->
  (fst (fst (user_stats db fid clock)) <= 25)%nat.
Proof.
  intros [N F] Fut. unfold user_stats. cbn [fst].
  set (rows := filter _ db).
  assert (Rin : forall r, In r rows ->
            In r db /\ CastCounts.fid r = fid /\ clock - DAY_MS < CastCounts.cast_time r).
  { intros r I. apply filter_In in I. destruct I as [I C].
    apply andb_prop in C. destruct C as [C1 C2].
    apply Z.eqb_eq in C1. apply Z.ltb_lt in C2. auto. }
  assert (Nb : NoDup (map CastCounts.hour_bucket rows)).
  { assert (Nk : NoDup (map key_of rows)) by (apply NoDup_map_filter, N).
    assert (E : map key_of rows = map (fun b => (fid, b)) (map CastCounts.hour_bucket rows)).
    { rewrite map_map. apply map_ext_in. intros r I.
      destruct (Rin r I) as (_ & E & _). unfold key_of. rewrite E. reflexivity. }
    rewrite E in Nk. apply NoDup_map_inv in Nk. exact Nk. }
  rewrite <- (length_map CastCounts.hour_bucket).
  apply (NoDup_in_range ((clock - DAY_MS) / HOUR_MS) 25 _ Nb).
  intros b I. apply in_map_iff in I. destruct I as (r & <- & I).
  destruct (Rin r I) as (Id & _ & Lt).
  rewrite Forall_forall in F. rewrite (F r Id).
  specialize (Fut r Id).
  assert (H : 0 < HOUR_MS) by (vm_compute; reflexivity).
  assert (D : DAY_MS = 24 * HOUR_MS) by (vm_compute; reflexivity).
  split.
  - apply Z.div_le_mono; lia.
  - assert (E : (clock - DAY_MS) / HOUR_MS = clock / HOUR_MS - 24).
    { rewrite D. replace (clock - 24 * HOUR_MS) with (clock + (-24) * HOUR_MS) by lia.
      rewrite Z.div_add by lia. lia. }
    rewrite E.
    assert (CastCounts.cast_time r / HOUR_MS <= clock / HOUR_MS)
      by (apply Z.div_le_mono; lia).
    simpl Z.of_nat. lia.
Qed.

Lemma X17_witness :
  let db := recordCast (recordCast (recordCast [] 7 (Some 3600001) 0)
                                   7 (Some 3600500) 0) 7 (Some 7200001) 0 in
  (fst (fst (user_stats db 7 9000000)) <= 25)%nat.
Proof.
  intro db.
  apply (X17_user_count_at_most_25 db 7 9000000).
  - unfold db. repeat apply recordCast_well_formed. split; constructor.
  - intros r I. vm_compute in I.
    destruct I as [<- | [<- | []]]; vm_compute; discriminate.
Defined.

Lemma filter_filter_weaker (A : Type) (p q : A -> bool) (l : list A) :
  (forall x, p x = true -> q x = true) ->
  filter p (filter q l) = filter p l.
Proof.
  intro H. induction l as [|x l IH]; [reflexivity|].
  simpl. destruct (q x) eqn:Q; simpl.
  - rewrite IH. reflexivity.
  - destruct (p x) eqn:P; [|exact IH].
    rewrite (H x P) in Q. discriminate.
Qed.

Lemma recent_survives_cleanup (clock clock' : Z) (r : CastCounts.Row) :
  clock <= clock' ->
  recent clock' r = true ->
  negb (CastCounts.cast_time r <? clock - DAY_MS) = true.
Proof.
  unfold recent. intros L R. apply Z.ltb_lt in R.
  apply negb_true_iff, Z.ltb_ge. lia.
Qed.

(** X18. The cleanup is invisible to readers: a query made at the time of
    a [cleanOldCasts] or at any later time returns the same result on the
    cleaned table as on the uncleaned one.  This holds of the totals of
    [/api/stats], of the per-user statistics and of the most-active
    ranking. *)
Theorem X18_cleanup_changes_no_answer
  (db : Table) (users : list UserCache.Row) (clock clock' : Z) (fid limit : Z) :
  clock <= clock' ->
  total_casts (cleanOldCasts db clock) clock' = total_casts db clock' /\
  unique_users (cleanOldCasts db clock) clock' = unique_users db clock' /\
  user_stats (cleanOldCasts db clock) fid clock' = user_stats db fid clock' /\
  getMostActiveCasters (cleanOldCasts db clock) users limit clock'
  = getMostActiveCasters db users limit clock'.
Proof.
  intro L.
  assert (E : filter (recent clock') (cleanOldCasts db clock)
              = filter (recent clock') db).
  { unfold cleanOldCasts. apply filter_filter_weaker.
    intros r R. apply (recent_survives_cleanup clock clock' r L R). }
  unfold total_casts, unique_users, getMostActiveCasters. rewrite E.
  repeat split.
  unfold user_stats, cleanOldCasts.
  rewrite filter_filter_weaker; [reflexivity|].
  intros r R. apply andb_prop in R.
  apply (recent_survives_cleanup clock clock' r L), R.
Qed.

Lemma X18_witness :
  let db := recordCast (recordCast [] 7 (Some 1000) 0) 8 (Some 90000000) 0 in
  total_casts (cleanOldCasts db 90000000) 90000001 = total_casts db 90000001.
Proof.
  intro db.
  apply (X18_cleanup_changes_no_answer db [] 90000000 90000001 7 10).
  vm_compute. discriminate.
Defined.

Lemma length_nodup_le (l : list Z) : (length (nodup Z.eq_dec l) <= length l)%nat.
Proof.
  induction l as [|x l IH]; [apply Nat.le_refl|].
  simpl. destruct (in_dec Z.eq_dec x l); simpl; lia.
Qed.

(** X19. The two figures of [/api/stats] are consistent: there are never
    more unique users than counted rows, and there is a unique user
    exactly when there is a counted row. *)
Theorem X19_stats_are_consistent (db : Table) (clock : Z) :
  (unique_users db clock <= total_casts db clock)%nat /\
  (unique_users db clock = 0%nat <-> total_casts db clock = 0%nat).
Proof.
  unfold unique_users, total_casts.
  set (rows := filter (recent clock) db).
  split.
  - rewrite <- (length_map CastCounts.fid rows). apply length_nodup_le.
  - split; intro H.
    + apply length_zero_iff_nil in H.
      destruct rows as [|r rest]; [reflexivity|]. exfalso.
      assert (I : In (CastCounts.fid r) (nodup Z.eq_dec (map CastCounts.fid (r :: rest)))).
      { apply nodup_In. left. reflexivity. }
      rewrite H in I. destruct I.
    + apply length_zero_iff_nil in H. rewrite H. reflexivity.
Qed.

(** ** The batch endpoint *)

Lemma record_items_app (good more : list Item) :
  forall i clock db,
    all_casts good = true ->
    record_items (good ++ more) i clock db
    = record_items more (i + length good) clock (fst (record_items good i clock db)).
Proof.
  induction good as [|[|f ts] good IH]; intros i clock db A; cbn [app record_items length].
  - rewrite Nat.add_0_r. reflexivity.
  - discriminate.
  - simpl in A. rewrite (IH (S i) clock _ A).
    rewrite Nat.add_succ_r. reflexivity.
Qed.

Lemma record_items_all_casts (items : list Item) :
  forall i clock db,
    all_casts items = true -> snd (record_items items i clock db) = None.
Proof.
  induction items as [|[|f ts] rest IH]; intros i clock db A; cbn [record_items].
  - reflexivity.
  - discriminate.
  - apply IH. exact A.
Qed.

(** X20. A request the batch endpoint refuses is not rolled back and not
    cleaned up after: an unparsable body (500) and a [casts] that is not
    an array (400) leave the table untouched, and an array with a [null]
    element answers 500 with the elements before the first [null] recorded,
    exactly as a post of those elements alone would have recorded them,
    and the elements after it ignored. *)
Theorem X20_refused_batch_is_partly_applied
  (good rest : list Item) (message : string) (draw : bool)
  (clock : nat -> Z) (db : Table) :
  batch_casts (BodyThrows message) draw clock db
  = (mkResponse 500 (Failure message), db) /\
  batch_casts CastsNotArray draw clock db
  = (mkResponse 400 (Failure "Invalid casts data"), db) /\
  (all_casts good = true ->
   batch_casts (CastsArray (good ++ ItemNull :: rest)) draw clock db
   = (mkResponse 500 (Failure NULL_ITEM),
      snd (batch_casts (CastsArray good) false clock db))).
Proof.
  split; [reflexivity|]. split; [reflexivity|].
  intro A. unfold batch_casts.
  rewrite (record_items_app good (ItemNull :: rest) 0 clock db A).
  cbn [record_items].
  pose proof (record_items_all_casts good 0 clock db A) as N.
  destruct (record_items good 0 clock db) as [db' o]. cbn [snd fst] in *.
  subst o. reflexivity.
Qed.

Lemma X20_witness :
  batch_casts (CastsArray ([ItemCast 7 (Some 3600001)] ++ ItemNull :: [ItemCast 8 None]))
              true (fun _ => 5) []
  = (mkResponse 500 (Failure NULL_ITEM), [CastCounts.mkRow 7 3600001 1]).
Proof.
  apply (X20_refused_batch_is_partly_applied [ItemCast 7 (Some 3600001)]
           [ItemCast 8 None] EmptyString true (fun _ => 5) []).
  reflexivity.
Defined.

Lemma record_items_body (casts : list CastEvent) :
  forall i clock db,
    stamped casts ->
    record_items (map (fun c => ItemCast (fid c) (Some (timestamp c))) casts) i clock db
    = (store casts db, None).
Proof.
  induction casts as [|c casts IH]; intros i clock db St; [reflexivity|].
  inversion St as [|? ? Hc Hs]; subst.
  cbn [map record_items store fold_left].
  unfold recordCast, timestamp_or.
  apply Z.eqb_neq in Hc. rewrite Hc.
  apply (IH (S i) clock _ Hs).
Qed.

Lemma record_items_body_ok (casts : list CastEvent) :
  forall i clock db,
    snd (record_items (map (fun c => ItemCast (fid c) (Some (timestamp c))) casts)
                      i clock db) = None.
Proof.
  intros i clock db. apply record_items_all_casts.
  unfold all_casts. rewrite forallb_forall. intros x I.
  apply in_map_iff in I. destruct I as (c & <- & _). reflexivity.
Qed.

(** X21. The endpoint accepts every batch the stream processor posts:
    for the body made of any list of events it answers 200 and reports as
    many processed items as were posted, so the flush that sent it takes
    its success branch and puts nothing back. *)
Theorem X21_posted_batch_is_accepted
  (casts : list CastEvent) (draw : bool) (clock : nat -> Z) (db : Table) :
  let response := fst (batch_casts (body_of casts) draw clock db) in
  status response = 200 /\
  body response = BatchProcessed (length casts) (clock (S (length casts))) /\
  delivery_failed (FetchResponds (status response)) = false.
Proof.
  unfold batch_casts, body_of.
  pose proof (record_items_body_ok casts 0 clock db) as N.
  destruct (record_items _ 0 clock db) as [db' o]. cbn [snd] in N. subst o.
  cbn [fst status body]. rewrite length_map. repeat split.
Qed.

Lemma lookup_store (f b : Z) (casts : list CastEvent) :
  forall db, lookup f b (store casts db) = latest f b casts (lookup f b db).
Proof.
  induction casts as [|c casts IH]; intro db; [reflexivity|].
  cbn [store latest fold_left]. fold (store casts).
  change (fold_left _ casts ?d) with (latest f b casts d) at 2.
  rewrite IH. f_equal.
  destruct ((fid c =? f) && (timestamp c / HOUR_MS =? b)) eqn:M.
  - apply andb_prop in M. destruct M as [M1 M2].
    apply Z.eqb_eq in M1. apply Z.eqb_eq in M2. subst f b.
    apply lookup_upsert_same. reflexivity.
  - apply lookup_upsert_other. intro E. injection E as -> ->.
    rewrite !Z.eqb_refl in M. discriminate.
Qed.

Lemma latest_snoc (f b : Z) (casts : list CastEvent) (x : CastEvent) (d : option Z) :
  latest f b (casts ++ [x]) d
  = if (fid x =? f) && (timestamp x / HOUR_MS =? b)
    then Some (timestamp x) else latest f b casts d.
Proof.
  unfold latest. rewrite fold_left_app. reflexivity.
Qed.

Lemma latest_found (casts : list CastEvent) (c : CastEvent) (d : option Z) :
  In c casts ->
  exists c', In c' casts /\ fid c' = fid c /\
             timestamp c' / HOUR_MS = timestamp c / HOUR_MS /\
             latest (fid c) (timestamp c / HOUR_MS) casts d = Some (timestamp c').
Proof.
  induction casts as [|x casts IH] using rev_ind; intro I; [destruct I|].
  rewrite latest_snoc.
  destruct ((fid x =? fid c) && (timestamp x / HOUR_MS =? timestamp c / HOUR_MS)) eqn:M.
  - apply andb_prop in M. destruct M as [M1 M2].
    apply Z.eqb_eq in M1. apply Z.eqb_eq in M2.
    exists x. repeat split; try assumption. apply in_or_app. right. left. reflexivity.
  - apply in_app_or in I. destruct I as [I | [-> | []]].
    + destruct (IH I) as (c' & I' & E1 & E2 & L).
      exists c'. repeat split; try assumption. apply in_or_app. left. exact I'.
    + rewrite !Z.eqb_refl in M. discriminate.
Qed.

Lemma latest_last (casts : list CastEvent) (c : CastEvent) (d : option Z) :
  In c casts ->
  exists pre c' post,
    casts = pre ++ c' :: post /\
    fid c' = fid c /\
    timestamp c' / HOUR_MS = timestamp c / HOUR_MS /\
    (forall x, In x post ->
       ~ (fid x = fid c /\ timestamp x / HOUR_MS = timestamp c / HOUR_MS)) /\
    latest (fid c) (timestamp c / HOUR_MS) casts d = Some (timestamp c').
Proof.
  induction casts as [|x casts IH] using rev_ind; intro I; [destruct I|].
  rewrite latest_snoc.
  destruct ((fid x =? fid c) && (timestamp x / HOUR_MS =? timestamp c / HOUR_MS)) eqn:M.
  - apply andb_prop in M. destruct M as [M1 M2].
    apply Z.eqb_eq in M1. apply Z.eqb_eq in M2.
    exists casts, x, []. split; [reflexivity|]. split; [exact M1|].
    split; [exact M2|]. split; [intros y []|reflexivity].
  - assert (Ic : In c casts).
    { apply in_app_or in I. destruct I as [I | [-> | []]]; [exact I|].
      rewrite !Z.eqb_refl in M. discriminate. }
    destruct (IH Ic) as (pre & c' & post & E & E1 & E2 & N & L).
    exists pre, c', (post ++ [x]). split.
    { rewrite E, <- app_assoc. reflexivity. }
    split; [exact E1|]. split; [exact E2|]. split; [|exact L].
    intros y Iy. apply in_app_or in Iy. destruct Iy as [Iy | [<- | []]].
    + apply N, Iy.
    + intros [K1 K2]. rewrite K1, K2, !Z.eqb_refl in M. discriminate.
Qed.

Lemma latest_default (f b : Z) (casts : list CastEvent) (d : option Z) :
  latest f b casts d
  = match latest f b casts None with Some t => Some t | None => d end.
Proof.
  induction casts as [|x casts IH] using rev_ind; [reflexivity|].
  rewrite !latest_snoc.
  destruct ((fid x =? f) && (timestamp x / HOUR_MS =? b)); [reflexivity | exact IH].
Qed.

Lemma latest_idem (f b : Z) (casts : list CastEvent) (d : option Z) :
  latest f b casts (latest f b casts d) = latest f b casts d.
Proof.
  rewrite (latest_default f b casts (latest f b casts d)).
  rewrite (latest_default f b casts d).
  destruct (latest f b casts None); reflexivity.
Qed.

Lemma lookup_Some_key (f b t : Z) (db : Table) :
  lookup f b db = Some t -> In (f, b) (map key_of db).
Proof.
  unfold lookup. intro L.
  destruct (find (conflicts f b) db) as [r|] eqn:F; [|discriminate].
  apply find_some in F. destruct F as [I C].
  apply in_map_iff. exists r. split; [apply conflicts_key, C | exact I].
Qed.

Lemma lookup_not_in (f b : Z) (db : Table) :
  ~ In (f, b) (map key_of db) -> lookup f b db = None.
Proof.
  intro N. destruct (lookup f b db) as [t|] eqn:L; [|reflexivity].
  exfalso. apply N. apply (lookup_Some_key f b t db L).
Qed.

Lemma store_keys_present (casts : list CastEvent) :
  forall db,
    (forall c, In c casts -> In (fid c, timestamp c / HOUR_MS) (map key_of db)) ->
    map key_of (store casts db) = map key_of db.
Proof.
  induction casts as [|c casts IH]; intros db P; [reflexivity|].
  cbn [store fold_left]. fold (store casts).
  assert (E : map key_of (upsert (fid c) (timestamp c) (timestamp c / HOUR_MS)
                                 (timestamp c) db) = map key_of db).
  { rewrite keys_upsert.
    assert (X : existsb (conflicts (fid c) (timestamp c / HOUR_MS)) db = true).
    { apply existsb_conflicts_key, P. left. reflexivity. }
    rewrite X. reflexivity. }
  rewrite IH; [exact E|].
  intros c' I. rewrite E. apply P. right. exact I.
Qed.

Lemma store_NoDup (casts : list CastEvent) :
  forall db, NoDup (map key_of db) -> NoDup (map key_of (store casts db)).
Proof.
  induction casts as [|c casts IH]; intros db N; [exact N|].
  cbn [store fold_left]. fold (store casts). apply IH, upsert_NoDup, N.
Qed.

Lemma store_well_formed (casts : list CastEvent) :
  forall db, well_formed db -> well_formed (store casts db).
Proof.
  induction casts as [|c casts IH]; intros db W; [exact W|].
  cbn [store fold_left]. fold (store casts). apply IH.
  destruct W as [N F]. split; [apply upsert_NoDup, N|].
  apply upsert_buckets; [reflexivity | exact F].
Qed.

(** Two tables with the same keys in the same order, unique, and the same
    time under every key are the same table. *)
Lemma table_ext (db1 : Table) :
  forall db2,
    NoDup (map key_of db1) ->
    map key_of db1 = map key_of db2 ->
    (forall f b, lookup f b db1 = lookup f b db2) ->
    db1 = db2.
Proof.
  induction db1 as [|r1 db1 IH]; intros [|r2 db2] N K L; try discriminate.
  - reflexivity.
  - cbn [map] in K, N. injection K as Kf Kb Kt.
    inversion N as [|? ? N1 N2]; subst.
    assert (C1 : conflicts (CastCounts.fid r1) (CastCounts.hour_bucket r1) r1 = true)
      by (apply conflicts_key; reflexivity).
    assert (C2 : conflicts (CastCounts.fid r1) (CastCounts.hour_bucket r1) r2 = true).
    { apply conflicts_key. unfold key_of. rewrite Kf, Kb. reflexivity. }
    assert (T : CastCounts.cast_time r1 = CastCounts.cast_time r2).
    { specialize (L (CastCounts.fid r1) (CastCounts.hour_bucket r1)).
      unfold lookup in L. cbn [find] in L. rewrite C1, C2 in L.
      injection L as L. exact L. }
    assert (E : r1 = r2).
    { destruct r1 as [f1 t1 b1], r2 as [f2 t2 b2].
      simpl in Kf, Kb, T. subst. reflexivity. }
    subst r2. f_equal.
    apply IH; [exact N2 | exact Kt |].
    intros f b.
    destruct (conflicts f b r1) eqn:C.
    + apply conflicts_key in C.
      rewrite !lookup_not_in; [reflexivity | rewrite <- Kt, <- C; exact N1
                               | rewrite <- C; exact N1].
    + specialize (L f b). unfold lookup in L. cbn [find] in L.
      rewrite C in L. exact L.
Qed.

Lemma store_idem (casts : list CastEvent) (db : Table) :
  NoDup (map key_of db) ->
  store casts (store casts db) = store casts db.
Proof.
  intro N.
  apply table_ext.
  - apply store_NoDup, store_NoDup, N.
  - apply store_keys_present. intros c I.
    destruct (latest_found casts c (lookup (fid c) (timestamp c / HOUR_MS) db) I)
      as (c' & _ & _ & _ & L).
    rewrite <- lookup_store in L.
    apply (lookup_Some_key _ _ _ _ L).
  - intros f b. rewrite !lookup_store. apply latest_idem.
Qed.

(** X22. Posting the same batch again changes nothing: for stamped events
    and a table with unique keys, a second post of a batch (a retry whose
    first answer was lost, say) leaves the table exactly as the first post
    left it, when neither post runs the cleanup. *)
Theorem X22_reposting_a_batch_is_harmless
  (casts : list CastEvent) (clock1 clock2 : nat -> Z) (db : Table) :
  well_formed db ->
  stamped casts ->
  let once := snd (batch_casts (body_of casts) false clock1 db) in
  snd (batch_casts (body_of casts) false clock2 once) = once /\
  once = store casts db.
Proof.
  intros [N _] St.
  unfold batch_casts, body_of.
  rewrite (record_items_body casts 0 clock1 db St). cbn [snd].
  rewrite (record_items_body casts 0 clock2 _ St). cbn [snd].
  split; [apply store_idem, N | reflexivity].
Qed.

Lemma X22_witness :
  let casts := [mkCast 7 3600001; mkCast 8 3600002; mkCast 7 3600500] in
  let once := snd (batch_casts (body_of casts) false (fun _ => 0) []) in
  snd (batch_casts (body_of casts) false (fun _ => 99) once) = once.
Proof.
  intros casts once.
  apply (X22_reposting_a_batch_is_harmless casts (fun _ => 0) (fun _ => 99) []).
  - split; constructor.
  - repeat constructor; discriminate.
Defined.

Lemma find_filter_kept (A : Type) (p keep : A -> bool) (l : list A) (r : A) :
  find p l = Some r -> keep r = true -> find p (filter keep l) = Some r.
Proof.
  induction l as [|x l IH]; intros F K; [discriminate|].
  cbn [find] in F. destruct (p x) eqn:P.
  - injection F as ->. cbn [filter]. rewrite K. cbn [find]. rewrite P. reflexivity.
  - cbn [filter]. destruct (keep x); cbn [find]; rewrite ?P; apply IH; assumption.
Qed.

(** X23. What the stream processor posts ends up in the table: after the
    endpoint has handled a batch of stamped events, every event of the
    batch has a row under its fid and hour bucket, and the row holds the
    time of the batch's last event on that key: the batch splits into
    [pre ++ c' :: post] with [c'] on the key of the event, no event of
    [post] on that key, and the row's time that of [c'].  If the cleanup
    runs in the same request this is so provided no event is older than
    its cutoff. *)
Theorem X23_posted_events_are_stored
  (casts : list CastEvent) (draw : bool) (clock : nat -> Z) (db : Table)
  (c : CastEvent) :
  stamped casts ->
  draw = false \/
  (forall c', In c' casts -> clock (length casts) - DAY_MS <= timestamp c') ->
  In c casts ->
  exists pre c' post,
    casts = pre ++ c' :: post /\
    fid c' = fid c /\
    timestamp c' / HOUR_MS = timestamp c / HOUR_MS /\
    (forall x, In x post ->
       ~ (fid x = fid c /\ timestamp x / HOUR_MS = timestamp c / HOUR_MS)) /\
    lookup (fid c) (timestamp c / HOUR_MS)
           (snd (batch_casts (body_of casts) draw clock db))
    = Some (timestamp c').
Proof.
  intros St D I.
  destruct (latest_last casts c (lookup (fid c) (timestamp c / HOUR_MS) db) I)
    as (pre & c' & post & E & E1 & E2 & N & L).
  rewrite <- lookup_store in L.
  exists pre, c', post.
  split; [exact E|]. split; [exact E1|]. split; [exact E2|]. split; [exact N|].
  unfold batch_casts, body_of.
  rewrite (record_items_body casts 0 clock db St). cbn [snd].
  rewrite length_map.
  destruct draw; [|exact L].
  destruct D as [D | D]; [discriminate|].
  unfold lookup in *. unfold cleanOldCasts.
  destruct (find (conflicts (fid c) (timestamp c / HOUR_MS)) (store casts db))
    as [r|] eqn:F; [|discriminate].
  cbn [option_map] in L. injection L as L.
  rewrite (find_filter_kept _ _ _ _ r F); [cbn [option_map]; rewrite L; reflexivity|].
  apply negb_true_iff, Z.ltb_ge. rewrite L. apply D.
  rewrite E. apply in_or_app. right. left. reflexivity.
Qed.

Lemma X23_witness :
  let casts := [mkCast 7 3600001; mkCast 7 3600500] in
  exists pre c' post,
    casts = pre ++ c' :: post /\
    (forall x, In x post -> ~ (fid x = 7 /\ timestamp x / HOUR_MS = 1)) /\
    lookup 7 1 (snd (batch_casts (body_of casts) true (fun _ => 4000000) []))
    = Some (timestamp c').
Proof.
  intro casts.
  destruct (X23_posted_events_are_stored casts true (fun _ => 4000000) []
              (mkCast 7 3600001)) as (pre & c' & post & E & _ & _ & N & L).
  - repeat constructor; discriminate.
  - right. intros c' [<- | [<- | []]]; vm_compute; discriminate.
  - left. reflexivity.
  - exists pre, c', post. split; [exact E|]. split; [exact N | exact L].
Defined.

(** ** The most-active ranking *)

Lemma insert_asc_perm (f : Z) (l : list Z) :
  Permutation (f :: l) (insert_asc f l).
Proof.
  induction l as [|h rest IH]; cbn [insert_asc]; [apply Permutation_refl|].
  destruct (f <=? h).
  - apply Permutation_refl.
  - apply (perm_trans (perm_swap h f rest)). apply perm_skip, IH.
Qed.

Lemma sort_asc_perm (l : list Z) : Permutation l (sort_asc l).
Proof.
  induction l as [|f l IH]; [apply Permutation_refl|].
  cbn [sort_asc fold_right]. fold (sort_asc l).
  apply (perm_trans (perm_skip f IH)). apply insert_asc_perm.
Qed.

Lemma insert_desc_perm (g : Active.Row) (l : list Active.Row) :
  Permutation (g :: l) (insert_desc g l).
Proof.
  induction l as [|h rest IH]; cbn [insert_desc]; [apply Permutation_refl|].
  destruct (Nat.leb (Active.cast_count h) (Active.cast_count g)).
  - apply Permutation_refl.
  - apply (perm_trans (perm_swap h g rest)). apply perm_skip, IH.
Qed.

Lemma order_desc_perm (l : list Active.Row) : Permutation l (order_desc l).
Proof.
  induction l as [|g l IH]; [apply Permutation_refl|].
  cbn [order_desc fold_right]. fold (order_desc l).
  apply (perm_trans (perm_skip g IH)). apply insert_desc_perm.
Qed.

Lemma insert_desc_sorted (g : Active.Row) (l : list Active.Row) :
  StronglySorted outranks l -> StronglySorted outranks (insert_desc g l).
Proof.
  induction 1 as [|h rest S IH F]; cbn [insert_desc].
  - constructor; constructor.
  - destruct (Nat.leb (Active.cast_count h) (Active.cast_count g)) eqn:E.
    + apply Nat.leb_le in E. constructor.
      * constructor; assumption.
      * constructor; [exact E|].
        rewrite Forall_forall in *. intros y I. specialize (F y I).
        unfold outranks in *. lia.
    + apply Nat.leb_gt in E. constructor; [exact IH|].
      apply (Permutation_Forall (insert_desc_perm g rest)).
      constructor; [unfold outranks; lia | exact F].
Qed.

Lemma order_desc_sorted (l : list Active.Row) :
  StronglySorted outranks (order_desc l).
Proof.
  induction l as [|g l IH]; [constructor|].
  cbn [order_desc fold_right]. apply insert_desc_sorted, IH.
Qed.

Lemma firstn_sorted (n : nat) (l : list Active.Row) :
  StronglySorted outranks l -> StronglySorted outranks (firstn n l).
Proof.
  intro S. revert n. induction S as [|h rest S IH F]; intros [|n]; cbn [firstn];
    try constructor.
  - apply IH.
  - rewrite Forall_forall in *. intros y I. apply F. apply (In_firstn _ n rest y I).
Qed.

Lemma sorted_app_outranks (l1 l2 : list Active.Row) (x y : Active.Row) :
  StronglySorted outranks (l1 ++ l2) -> In x l1 -> In y l2 -> outranks x y.
Proof.
  induction l1 as [|h l1 IH]; intros S Ix Iy; [destruct Ix|].
  cbn [app] in S. inversion S as [|? ? S' F]; subst.
  destruct Ix as [-> | Ix].
  - rewrite Forall_forall in F. apply F. apply in_or_app. right. exact Iy.
  - apply IH; assumption.
Qed.

Lemma filter_filter_and (A : Type) (p q : A -> bool) (l : list A) :
  filter p (filter q l) = filter (fun x => p x && q x) l.
Proof.
  induction l as [|x l IH]; [reflexivity|].
  cbn [filter]. destruct (q x); cbn [filter]; rewrite ?andb_true_r, ?andb_false_r.
  - destruct (p x); rewrite IH; reflexivity.
  - exact IH.
Qed.

Lemma group_count (db : Table) (users : list UserCache.Row) (fid clock : Z) :
  Active.cast_count (group_of users (filter (recent clock) db) fid)
  = fst (fst (user_stats db fid clock)).
Proof.
  unfold group_of, user_stats. cbn [Active.cast_count fst].
  rewrite filter_filter_and. reflexivity.
Qed.

Lemma active_fid_counted (db : Table) (fid clock : Z) :
  In fid (map CastCounts.fid (filter (recent clock) db)) <->
  (1 <= fst (fst (user_stats db fid clock)))%nat.
Proof.
  unfold user_stats. cbn [fst]. rewrite <- filter_filter_and. split.
  - intro I. apply in_map_iff in I. destruct I as (r & E & I).
    assert (I' : In r (filter (fun r => CastCounts.fid r =? fid)
                              (filter (recent clock) db))).
    { apply filter_In. split; [exact I | apply Z.eqb_eq, E]. }
    destruct (filter _ (filter _ db)); [destruct I' | simpl; lia].
  - intro L.
    destruct (filter (fun r => CastCounts.fid r =? fid) (filter (recent clock) db))
      as [|r rest] eqn:E; [simpl in L; lia|].
    assert (I : In r (r :: rest)) by (left; reflexivity).
    rewrite <- E in I. apply filter_In in I. destruct I as [I C].
    apply in_map_iff. exists r. split; [apply Z.eqb_eq, C | exact I].
Qed.

Lemma sql_limit_split (n : Z) (l : list Active.Row) :
  exists cut, sql_limit n l ++ cut = l /\ (n < 0 -> cut = []) /\
              (0 <= n -> sql_limit n l = firstn (Z.to_nat n) l).
Proof.
  unfold sql_limit. destruct (n <? 0) eqn:E.
  - apply Z.ltb_lt in E. exists []. rewrite app_nil_r.
    repeat split; intros; try reflexivity; lia.
  - apply Z.ltb_ge in E. exists (skipn (Z.to_nat n) l).
    rewrite firstn_skipn. repeat split; intros; try reflexivity; lia.
Qed.

(** X24. The most-active ranking is the top of the list: its rows are in
    descending order of count, no fid appears twice, under a non-negative
    limit it has as many rows as the limit allows and active users exist
    (the smaller of the limit and the number of unique users), each row
    carries the count that [/api/user/:fid/stats] reports for its fid at
    the same instant (at least 1) and the names cached for that fid, and
    every active user left out has no more counted rows than any user
    shown. *)
Theorem X24_ranking_is_a_top_list
  (db : Table) (users : list UserCache.Row) (limit clock : Z) :
  let result := getMostActiveCasters db users limit clock in
  StronglySorted outranks result /\
  NoDup (map Active.fid result) /\
  (0 <= limit ->
   length result = Nat.min (Z.to_nat limit) (unique_users db clock)) /\
  (forall g, In g result ->
     Active.cast_count g = fst (fst (user_stats db (Active.fid g) clock)) /\
     (1 <= Active.cast_count g)%nat /\
     Active.username g = match cached users (Active.fid g) with
                         | Some u => UserCache.username u
                         | None => None
                         end /\
     Active.display_name g = match cached users (Active.fid g) with
                             | Some u => UserCache.display_name u
                             | None => None
                             end) /\
  (forall fid g,
     (1 <= fst (fst (user_stats db fid clock)))%nat ->
     ~ In fid (map Active.fid result) ->
     In g result ->
     (fst (fst (user_stats db fid clock)) <= Active.cast_count g)%nat).
Proof.
  intro result. unfold getMostActiveCasters in result.
  set (rows := filter (recent clock) db) in *.
  set (distinct := nodup Z.eq_dec (map CastCounts.fid rows)) in *.
  set (fids := sort_asc distinct) in *.
  set (groups := map (group_of users rows) fids) in *.
  pose proof (order_desc_sorted groups) as So.
  pose proof (order_desc_perm groups) as Pe.
  pose proof (sort_asc_perm distinct) as Pf.
  destruct (sql_limit_split limit (order_desc groups)) as (cut & Sp & Neg & Pos).
  fold result in Sp, Pos.
  assert (Gf : map Active.fid groups = fids).
  { unfold groups. rewrite map_map. cbn [group_of Active.fid]. apply map_id. }
  assert (InG : forall g, In g result -> exists f, In f fids /\ g = group_of users rows f).
  { intros g I.
    assert (I' : In g (order_desc groups)) by (rewrite <- Sp; apply in_or_app; left; exact I).
    apply (Permutation_in _ (Permutation_sym Pe)) in I'.
    apply in_map_iff in I'. destruct I' as (f & E & I'). exists f. auto. }
  split; [|split; [|split; [|split]]].
  - rewrite <- Sp in So. clear - So.
    induction (result) as [|h l IH]; [constructor|].
    cbn [app] in So. inversion So as [|? ? S' F]; subst. constructor; [apply IH, S'|].
    rewrite Forall_forall in *. intros y I. apply F. apply in_or_app. left. exact I.
  - assert (Nd : NoDup (map Active.fid (order_desc groups))).
    { apply (Permutation_NoDup (Permutation_map Active.fid Pe)).
      rewrite Gf. apply (Permutation_NoDup Pf). apply NoDup_nodup. }
    rewrite <- Sp, map_app in Nd. apply NoDup_app_remove_r in Nd. exact Nd.
  - intro P. rewrite (Pos P). rewrite length_firstn.
    rewrite <- (Permutation_length Pe). unfold groups. rewrite length_map.
    unfold fids. rewrite <- (Permutation_length Pf). reflexivity.
  - intros g I. destruct (InG g I) as (f & If & ->).
    cbn [Active.fid group_of Active.username Active.display_name].
    assert (C := group_count db users f clock). fold rows in C.
    split; [exact C|]. split; [|split; reflexivity].
    rewrite C. apply active_fid_counted. fold rows.
    apply (nodup_In Z.eq_dec). apply (Permutation_in _ (Permutation_sym Pf)), If.
  - intros f g L Nin I.
    assert (If : In f fids).
    { apply (Permutation_in _ Pf). apply nodup_In.
      apply active_fid_counted. exact L. }
    assert (Ig : In (group_of users rows f) (order_desc groups)).
    { apply (Permutation_in _ Pe). apply in_map. exact If. }
    rewrite <- Sp in Ig. apply in_app_or in Ig. destruct Ig as [Ig | Ig].
    + exfalso. apply Nin. apply in_map_iff.
      exists (group_of users rows f). split; [reflexivity | exact Ig].
    + rewrite <- Sp in So.
      pose proof (sorted_app_outranks _ _ g _ So I Ig) as O.
      unfold outranks in O.
      assert (C := group_count db users f clock). fold rows in C.
      rewrite <- C. exact O.
Qed.

Lemma X24_witness :
  let db := store [mkCast 7 3600001; mkCast 8 3600002; mkCast 7 7200001] [] in
  let result := getMostActiveCasters db [] 1 9000000 in
  length result = 1%nat /\
  (forall g, In g result -> (1 <= Active.cast_count g)%nat).
Proof.
  intros db result.
  destruct (X24_ranking_is_a_top_list db [] 1 9000000) as (_ & _ & L & C & _).
  split; [unfold result; rewrite L by lia; vm_compute; reflexivity|].
  intros g I. apply (C g I).
Defined.

(** X25. A negative limit is no limit: the ranking then has one row for
    every user with a counted row, as many rows as [/api/stats] reports
    unique users. *)
Theorem X25_negative_limit_returns_everyone
  (db : Table) (users : list UserCache.Row) (limit clock : Z) :
  limit < 0 ->
  let result := getMostActiveCasters db users limit clock in
  length result = unique_users db clock /\
  Permutation (map Active.fid result)
              (nodup Z.eq_dec (map CastCounts.fid (filter (recent clock) db))).
Proof.
  intros L result. unfold result, getMostActiveCasters, unique_users, sql_limit.
  apply Z.ltb_lt in L. rewrite L.
  set (rows := filter (recent clock) db).
  set (distinct := nodup Z.eq_dec (map CastCounts.fid rows)).
  set (fids := sort_asc distinct).
  pose proof (order_desc_perm (map (group_of users rows) fids)) as Pe.
  pose proof (sort_asc_perm distinct) as Pf.
  assert (Gf : map Active.fid (map (group_of users rows) fids) = fids).
  { rewrite map_map. cbn [group_of Active.fid]. apply map_id. }
  split.
  - rewrite <- (Permutation_length Pe), length_map.
    unfold fids. rewrite <- (Permutation_length Pf). reflexivity.
  - apply Permutation_sym. apply (perm_trans Pf).
    fold fids. pose proof (Permutation_map Active.fid Pe) as Pm.
    rewrite Gf in Pm. exact Pm.
Qed.

Lemma X25_witness :
  let db := store [mkCast 7 3600001; mkCast 8 3600002; mkCast 7 7200001] [] in
  length (getMostActiveCasters db [] (-1) 9000000) = unique_users db 9000000.
Proof.
  intro db.
  apply (X25_negative_limit_returns_everyone db [] (-1) 9000000). lia.
Defined.

(** ** The single-cast endpoint *)

(** X26. [/api/cast] refuses a body without a fid and one with fid 0
    (400, table untouched), and records any other fid so that it reads
    back; [/api/batch-casts] has no such check and records a cast of fid 0
    like any other. *)
Theorem X26_fid_zero_only_through_batch
  (fid : option Z) (timestamp : option Z) (clock : nat -> Z) (db : Table) :
  (fid = None \/ fid = Some 0 ->
   post_cast fid timestamp clock db
   = (mkResponse 400 (Failure "fid is required"), db)) /\
  (forall f, fid = Some f -> f <> 0 ->
     let now := timestamp_or timestamp (clock 0%nat) in
     status (fst (post_cast fid timestamp clock db)) = 200 /\
     lookup f (now / HOUR_MS) (snd (post_cast fid timestamp clock db)) = Some now) /\
  (let now := timestamp_or timestamp (clock 0%nat) in
   status (fst (batch_casts (CastsArray [ItemCast 0 timestamp]) false clock db)) = 200 /\
   lookup 0 (now / HOUR_MS)
          (snd (batch_casts (CastsArray [ItemCast 0 timestamp]) false clock db))
   = Some now).
Proof.
  split; [|split].
  - intros [-> | ->]; reflexivity.
  - intros f -> N now. unfold post_cast.
    apply Z.eqb_neq in N. rewrite N. cbn [fst snd status]. split; [reflexivity|].
    unfold recordCast. fold now. apply lookup_upsert_same. reflexivity.
  - intro now. cbn [batch_casts record_items fst snd status length].
    split; [reflexivity|].
    unfold recordCast. fold now. apply lookup_upsert_same. reflexivity.
Qed.

Lemma X26_witness :
  post_cast (Some 0) (Some 3600001) (fun _ => 5) []
  = (mkResponse 400 (Failure "fid is required"), []) /\
  lookup 7 1 (snd (post_cast (Some 7) (Some 3600001) (fun _ => 5) []))
  = Some 3600001.
Proof.
  destruct (X26_fid_zero_only_through_batch (Some 0) (Some 3600001) (fun _ => 5) [])
    as [A _].
  destruct (X26_fid_zero_only_through_batch (Some 7) (Some 3600001) (fun _ => 5) [])
    as (_ & B & _).
  split.
  - apply A. right. reflexivity.
  - apply (B 7 eq_refl). discriminate.
Defined.

(** ** The reconnect loop, once more *)

Lemma ready_callback_never_sleeps (a : Attempt) :
  filter is_sleep (fst (ready_callback a)) = [].
Proof.
  unfold ready_callback.
  destruct (ready a); [|reflexivity].
  destruct (subscribed a) as [events fin | | e]; try reflexivity.
  assert (C : filter is_sleep (consume events 0) = []).
  { apply filter_add_or_log; [|apply consume_add_or_log].
    intros [] H; try discriminate; reflexivity. }
  destruct fin; cbn [fst]; rewrite ?filter_app; cbn [filter is_sleep app];
    rewrite ?filter_app, C; reflexivity.
Qed.

(** X27. The loop retries without limit and without backoff: against a
    script of n passes that each end in an error, at whatever stage, it
    makes n connection attempts, sleeps exactly n times, 10 seconds each
    time, and never calls [process.exit]. *)
Theorem X27_fixed_delay_retry_without_limit (script : list Attempt) :
  Forall raises script ->
  length (filter is_create (connect_loop script)) = length script /\
  filter is_sleep (connect_loop script) = repeat (ASleep 10000) (length script) /\
  existsb is_exit (connect_loop script) = false.
Proof.
  intro F. split; [|split].
  - apply retries_unbounded, F.
  - induction F as [|a rest [e E] _ IH]; [reflexivity|].
    rewrite (retry_after_error a e rest E).
    cbn [app filter is_sleep]. rewrite filter_app, ready_callback_never_sleeps.
    cbn [app filter is_sleep length repeat]. rewrite IH. reflexivity.
  - apply connect_loop_never_exits.
Qed.

Lemma X27_witness :
  let script := [mkAttempt (NotReady "deadline") SubscribeErr;
                 mkAttempt Ready SubscribeErr;
                 mkAttempt Ready (SubscribeOk [] (StreamThrows "reset"))] in
  length (filter is_create (connect_loop script)) = 3%nat /\
  filter is_sleep (connect_loop script)
  = [ASleep 10000; ASleep 10000; ASleep 10000].
Proof.
  intro script.
  destruct (X27_fixed_delay_retry_without_limit script) as (A & B & _).
  - repeat constructor; eexists; reflexivity.
  - split; [exact A | exact B].
Defined.

(** ** Per-user statistics *)

Lemma fold_min_spec (l : list Z) :
  forall x, let m := fold_left Z.min l x in
            In m (x :: l) /\ forall y, In y (x :: l) -> m <= y.
Proof.
  induction l as [|a l IH]; intro x; cbn [fold_left].
  - split; [left; reflexivity|]. intros y [<- | []]. lia.
  - destruct (IH (Z.min x a)) as [I L]. split.
    + destruct I as [E | I]; [|right; right; exact I].
      rewrite <- E.
      destruct (Z.min_spec x a) as [[_ M] | [_ M]]; rewrite M;
        [left | right; left]; reflexivity.
    + intros y [<- | [<- | I']].
      * specialize (L (Z.min x a) (or_introl eq_refl)). lia.
      * specialize (L (Z.min x a) (or_introl eq_refl)). lia.
      * apply L. right. exact I'.
Qed.

Lemma fold_max_spec (l : list Z) :
  forall x, let m := fold_left Z.max l x in
            In m (x :: l) /\ forall y, In y (x :: l) -> y <= m.
Proof.
  induction l as [|a l IH]; intro x; cbn [fold_left].
  - split; [left; reflexivity|]. intros y [<- | []]. lia.
  - destruct (IH (Z.max x a)) as [I L]. split.
    + destruct I as [E | I]; [|right; right; exact I].
      rewrite <- E.
      destruct (Z.max_spec x a) as [[_ M] | [_ M]]; rewrite M;
        [right; left | left]; reflexivity.
    + intros y [<- | [<- | I']].
      * specialize (L (Z.max x a) (or_introl eq_refl)). lia.
      * specialize (L (Z.max x a) (or_introl eq_refl)). lia.
      * apply L. right. exact I'.
Qed.

(** X28. The statistics of a user hang together: the first and last cast
    times are NULL exactly when the count is 0; otherwise both are cast
    times of rows of that fid, both lie after the 24-hour cutoff, and the
    first is not after the last. *)
Theorem X28_user_stats_are_consistent (db : Table) (fid clock : Z) :
  let count := fst (fst (user_stats db fid clock)) in
  let first := snd (fst (user_stats db fid clock)) in
  let last := snd (user_stats db fid clock) in
  (count = 0%nat <-> first = None) /\
  (count = 0%nat <-> last = None) /\
  (forall lo hi, first = Some lo -> last = Some hi ->
     clock - DAY_MS < lo /\ lo <= hi /\
     (exists r, In r db /\ CastCounts.fid r = fid /\ CastCounts.cast_time r = lo) /\
     (exists r, In r db /\ CastCounts.fid r = fid /\ CastCounts.cast_time r = hi)).
Proof.
  unfold user_stats. cbn [fst snd].
  set (rows := filter _ db).
  assert (Rin : forall t, In t (map CastCounts.cast_time rows) ->
            clock - DAY_MS < t /\
            exists r, In r db /\ CastCounts.fid r = fid /\ CastCounts.cast_time r = t).
  { intros t I. apply in_map_iff in I. destruct I as (r & <- & I).
    apply filter_In in I. destruct I as [I C].
    apply andb_prop in C. destruct C as [C1 C2].
    apply Z.eqb_eq in C1. apply Z.ltb_lt in C2.
    split; [exact C2|]. exists r. auto. }
  rewrite <- (length_map CastCounts.cast_time rows).
  destruct (map CastCounts.cast_time rows) as [|x times].
  - repeat split; try reflexivity; intros; discriminate.
  - cbn [sql_min sql_max length].
    split; [split; intro; discriminate|]. split; [split; intro; discriminate|].
    intros lo hi E1 E2. injection E1 as <-. injection E2 as <-.
    destruct (fold_min_spec times x) as [Imin Lmin].
    destruct (fold_max_spec times x) as [Imax Lmax].
    destruct (Rin _ Imin) as [Cmin Rmin]. destruct (Rin _ Imax) as [_ Rmax].
    split; [exact Cmin|]. split; [apply Lmin, Imax|]. split; assumption.
Qed.

Lemma X28_witness :
  let db := store [mkCast 7 3600001; mkCast 8 3600002; mkCast 7 7200001] [] in
  snd (fst (user_stats db 7 9000000)) = Some 3600001 /\
  snd (user_stats db 7 9000000) = Some 7200001 /\
  9000000 - DAY_MS < 3600001 /\ 3600001 <= 7200001.
Proof.
  intro db.
  assert (E1 : snd (fst (user_stats db 7 9000000)) = Some 3600001)
    by (vm_compute; reflexivity).
  assert (E2 : snd (user_stats db 7 9000000) = Some 7200001)
    by (vm_compute; reflexivity).
  destruct (X28_user_stats_are_consistent db 7 9000000) as (_ & _ & H).
  destruct (H 3600001 7200001 E1 E2) as (A & B & _).
  repeat split; assumption.
Defined.

Lemma X19_witness :
  let db := store [mkCast 7 3600001; mkCast 8 3600002; mkCast 7 7200001] [] in
  (unique_users db 9000000 <= total_casts db 9000000)%nat.
Proof.
  intro db. apply (X19_stats_are_consistent db 9000000).
Defined.
